(** * SWRKit: request/response orchestration pipeline

    A shallow embedding of the utility layer of SWRKit ([utils.ts]), of the
    authentication transform of the provider ([context.tsx]) and of the
    mutation trigger ([swrkit.ts]), together with the properties the
    specification states about them.

    Conventions.
    - JavaScript strings are modelled by [string]; the default ordering of
      [Array.prototype.sort] (code-unit order) is [String.leb].
    - JavaScript numbers are modelled by [Z]: only integral values occur in
      the properties below, and no arithmetic is performed on them.
    - Plain JavaScript objects are association lists in insertion order.
    - Functions imported from [@mshindi-labs/refetch] and platform builtins
      whose text is not part of the repository are section variables. *)

From Stdlib Require Import ZArith List String Ascii Bool Lia.
From Stdlib Require Import Permutation Sorted DecimalString.
Import ListNotations.

Local Open Scope string_scope.
Local Open Scope list_scope.

Local Infix "^^" := String.append (at level 60, right associativity).

(** ** JavaScript values *)

#[local] Set Warnings "-register-all".

Inductive JsValue : Type :=
| JsUndefined
| JsNull
| JsBool (b : bool)
| JsNumber (n : Z)
| JsString (s : string)
| JsArray (elems : list JsValue)
| JsObject (props : list (string * JsValue)).

Definition JsObj := list (string * JsValue).

(** [ToBoolean]: the falsy values are [undefined], [null], [false], [0]
    and the empty string. *)
Definition truthy (v : JsValue) : bool :=
  match v with
  | JsUndefined | JsNull => false
  | JsBool b => b
  | JsNumber n => negb (n =? 0)%Z
  | JsString s => negb (s =? EmptyString)
  | JsArray _ | JsObject _ => true
  end.

(** [a || b] *)
Definition js_or (a b : JsValue) : JsValue := if truthy a then a else b.

(** [o[k]] on an association list: [undefined] when the key is missing. *)
Fixpoint obj_get (o : JsObj) (k : string) : JsValue :=
  match o with
  | [] => JsUndefined
  | (k', v) :: o' => if k' =? k then v else obj_get o' k
  end.

(** ['k' in o] *)
Definition obj_has (o : JsObj) (k : string) : bool :=
  existsb (fun kv => fst kv =? k) o.

(** [Object.keys(o)]; the order is irrelevant wherever it is used below,
    because the result is sorted at once. *)
Definition Object_keys (o : JsObj) : list string := map fst o.

(** [v.p]: property read on an arbitrary value that is neither [null] nor
    [undefined]; primitives and arrays carry no named data property. *)
Definition js_get (v : JsValue) (p : string) : JsValue :=
  match v with
  | JsObject o => obj_get o p
  | _ => JsUndefined
  end.

(** [v?.p] *)
Definition js_opt_get (v : JsValue) (p : string) : JsValue :=
  match v with
  | JsUndefined | JsNull => JsUndefined
  | _ => js_get v p
  end.

(** ** Ordering of strings and [Array.prototype.sort] *)

Fixpoint insert (k : string) (l : list string) : list string :=
  match l with
  | [] => [k]
  | h :: t => if (k <=? h)%string then k :: l else h :: insert k t
  end.

(** [l.sort()] on an array of strings.  Any sorting algorithm computes the
    same array (lemma [sorted_perm_unique] below); insertion sort is the
    one written here. *)
Fixpoint Array_sort (l : list string) : list string :=
  match l with
  | [] => []
  | h :: t => insert h (Array_sort t)
  end.

Definition le_string (a b : string) : Prop := (a <=? b)%string = true.

(** ** Cache keys ([utils.ts]) *)

(** [Number.prototype.toString] and [JSON.stringify] are builtins of the
    platform; the latter answers [undefined] (here [None]) for values that
    have no JSON text. *)
Class Builtins : Type := {
  Number_toString : Z -> string;
  JSON_stringify : JsValue -> option string
}.

(** Coercion performed by a template literal on the result of
    [JSON.stringify]. *)
Definition template (o : option string) : string :=
  match o with
  | Some s => s
  | None => "undefined"
  end.

(** [String(v)] for plain data. *)
Fixpoint JS_String `{Builtins} (v : JsValue) : string :=
  match v with
  | JsUndefined => "undefined"
  | JsNull => "null"
  | JsBool true => "true"
  | JsBool false => "false"
  | JsNumber n => Number_toString n
  | JsString s => s
  | JsArray l =>
      String.concat ","
        (map (fun e => match e with
                       | JsUndefined | JsNull => EmptyString
                       | _ => JS_String e
                       end) l)
  | JsObject _ => "[object Object]"
  end.

Definition serializeParam `{Builtins} (params : JsObj) (k : string) : string :=
  k ^^ "=" ^^ template (JSON_stringify (obj_get params k)).

Definition buildCacheKey `{Builtins}
    (key : JsValue) (params : option JsObj) : JsValue :=
  match key with
  | JsNull | JsUndefined => JsNull
  | JsArray _ => key
  | JsObject _ => key
  | _ =>
      let url := key in
      match params with
      | Some ps =>
          if (0 <? List.length (Object_keys ps))%nat then
            let sortedParams :=
              String.concat "&"
                (map (serializeParam ps) (Array_sort (Object_keys ps))) in
            JsString (JS_String url ^^ "?" ^^ sortedParams)
          else url
      | None => url
      end
  end.

Definition extractUrlFromKey `{Builtins} (key : JsValue) : JsValue :=
  if negb (truthy key) then JsNull
  else
    match key with
    | JsString _ => key
    | JsArray (first :: _) => JsString (JS_String first)
    | JsObject o =>
        if obj_has o "url" then JsString (JS_String (obj_get o "url"))
        else JsNull
    | _ => JsNull
    end.

(** [error?.response || null] *)
Definition extractResponseFromError (error : JsValue) : JsValue :=
  js_or (js_opt_get error "response") JsNull.

(** ** Case conversion *)

Definition ascii_toLower (c : ascii) : ascii :=
  let n := nat_of_ascii c in
  if ((65 <=? n) && (n <=? 90))%nat then ascii_of_nat (n + 32) else c.

Definition ascii_toUpper (c : ascii) : ascii :=
  let n := nat_of_ascii c in
  if ((97 <=? n) && (n <=? 122))%nat then ascii_of_nat (n - 32) else c.

Fixpoint string_map (f : ascii -> ascii) (s : string) : string :=
  match s with
  | EmptyString => EmptyString
  | String c s' => String (f c) (string_map f s')
  end.

Definition toLowerCase : string -> string := string_map ascii_toLower.
Definition toUpperCase : string -> string := string_map ascii_toUpper.

(** [a || b] on strings: the empty string is falsy. *)
Definition str_or (a : option string) (b : string) : string :=
  match a with
  | Some s => if s =? EmptyString then b else s
  | None => b
  end.

(** [a || b] on numbers: zero is falsy. *)
Definition num_or (a : option Z) (b : option Z) : option Z :=
  match a with
  | Some n => if (n =? 0)%Z then b else a
  | None => b
  end.

(** ** Data model ([types.ts], [constants.ts]) *)

Inductive PROBLEM_CODE : Type :=
| NONE
| CLIENT_ERROR
| SERVER_ERROR
| TIMEOUT_ERROR
| CONNECTION_ERROR
| NETWORK_ERROR
| CANCEL_ERROR
| UNKNOWN_ERROR.

Definition DEFAULT_TIMEOUT : Z := 10000.

Definition METHODS_WITH_BODY : list string := ["POST"; "PUT"; "PATCH"].

(** An optional property of an object literal: missing, present with the
    value [undefined], or present with a value.  [Object.assign] and the
    spread syntax tell the first two apart. *)
Inductive prop (A : Type) : Type :=
| Absent
| Undefined
| Value (a : A).
Arguments Absent {A}.
Arguments Undefined {A}.
Arguments Value {A} a.

(** Reading the property: [undefined] in the first two cases. *)
Definition read {A : Type} (p : prop A) : option A :=
  match p with
  | Value a => Some a
  | _ => None
  end.

(** [Object.assign] / spread on one property: a property of the source,
    whatever its value, replaces the one of the target. *)
Definition assign {A : Type} (target source : prop A) : prop A :=
  match source with
  | Absent => target
  | _ => source
  end.

(** The three shapes of [HeadersInit].  A [Headers] instance stores its
    names in lower case, one entry per name. *)
Inductive HeadersInit : Type :=
| HInstance (entries : list (string * string))
| HArray (entries : list (string * string))
| HRecord (fields : list (string * string)).

(** The part of [RequestInit] that overlaps with what the fetcher sets. *)
Record RequestInit : Type := {
  ri_method : prop string;
  ri_headers : prop HeadersInit;
  ri_body : prop string
}.

Record SWRKitRequestConfig : Type := {
  url : prop string;
  method : prop string;
  params : prop JsObj;
  data : prop JsValue;
  headers : prop HeadersInit;
  timeout : prop Z;
  options : prop RequestInit
}.

Definition emptyConfig : SWRKitRequestConfig :=
  {| url := Absent; method := Absent; params := Absent; data := Absent;
     headers := Absent; timeout := Absent; options := Absent |}.

(** The second argument of [fetchWithTimeout]. *)
Record FetchConfig : Type := {
  fc_method : option string;
  fc_headers : option HeadersInit;
  fc_body : option string;
  fc_timeout : option Z
}.

(** What the fetcher reads from a platform [Response]. *)
Record WebResponse : Type := {
  w_ok : bool;
  w_status : Z;
  w_statusText : string;
  w_headers : list (string * string)
}.

(** [SWRKitResponse] and the errors that carry one ([errors.ts]).  A plain
    [Error], or any error raised by a collaborator, has [e_problem = None]
    and [e_response = None]. *)
Inductive Error : Type :=
| mkError (e_name e_message : string) (e_problem : option PROBLEM_CODE)
          (e_status : option Z) (e_response : option SWRKitResponse)
with SWRKitResponse : Type :=
| mkResponse (ok : bool) (problem : option PROBLEM_CODE)
             (originalError : option Error) (r_data : JsValue)
             (status : option Z) (r_headers : option (list (string * string)))
             (duration : option Z).

Definition e_name (e : Error) : string :=
  let 'mkError n _ _ _ _ := e in n.
Definition e_message (e : Error) : string :=
  let 'mkError _ m _ _ _ := e in m.
Definition e_problem (e : Error) : option PROBLEM_CODE :=
  let 'mkError _ _ p _ _ := e in p.
Definition e_status (e : Error) : option Z :=
  let 'mkError _ _ _ s _ := e in s.
Definition e_response (e : Error) : option SWRKitResponse :=
  let 'mkError _ _ _ _ r := e in r.

Definition ok (r : SWRKitResponse) : bool :=
  let 'mkResponse o _ _ _ _ _ _ := r in o.
Definition problem (r : SWRKitResponse) : option PROBLEM_CODE :=
  let 'mkResponse _ p _ _ _ _ _ := r in p.
Definition originalError (r : SWRKitResponse) : option Error :=
  let 'mkResponse _ _ e _ _ _ _ := r in e.
Definition r_data (r : SWRKitResponse) : JsValue :=
  let 'mkResponse _ _ _ d _ _ _ := r in d.
Definition status (r : SWRKitResponse) : option Z :=
  let 'mkResponse _ _ _ _ s _ _ := r in s.
Definition r_headers (r : SWRKitResponse) : option (list (string * string)) :=
  let 'mkResponse _ _ _ _ _ h _ := r in h.
Definition duration (r : SWRKitResponse) : option Z :=
  let 'mkResponse _ _ _ _ _ _ d := r in d.

(** [new Error(message)] *)
Definition newError (message : string) : Error :=
  mkError "Error" message None None None.

(** The helpers imported from [@mshindi-labs/refetch], with the network
    behind [fetchWithTimeout] and [parseResponseBody]: each of the two
    either answers or throws. *)
Class Refetch : Type := {
  classifyProblem : option Z -> option Error -> PROBLEM_CODE;
  buildUrl : option string -> string -> option JsObj -> string;
  mergeHeaders : option HeadersInit -> option HeadersInit -> HeadersInit;
  headersToObject : list (string * string) -> list (string * string);
  prepareRequestBody : JsValue -> option string;
  fetchWithTimeout : string -> FetchConfig -> Error + WebResponse;
  parseResponseBody : WebResponse -> Error + JsValue
}.

(** ** Typed errors ([errors.ts]) *)

(** The constructor of [SWRKitError]; the subclasses only fix [name] and
    [problem]. *)
Definition SWRKitError (name message : string) (p : PROBLEM_CODE)
    (response : option SWRKitResponse) : Error :=
  mkError name message (Some p)
    (match response with Some r => status r | None => None end)
    response.

Definition createErrorFromResponse `{Builtins} (response : SWRKitResponse)
    : Error :=
  let message :=
    str_or (option_map e_message (originalError response))
      ("Request failed with status " ^^
       match status response with
       | Some n => Number_toString n
       | None => "undefined"
       end) in
  match problem response with
  | Some CLIENT_ERROR =>
      SWRKitError "SWRKitClientError" message CLIENT_ERROR (Some response)
  | Some SERVER_ERROR =>
      SWRKitError "SWRKitServerError" message SERVER_ERROR (Some response)
  | Some NETWORK_ERROR =>
      SWRKitError "SWRKitNetworkError" message NETWORK_ERROR (Some response)
  | Some CONNECTION_ERROR =>
      SWRKitError "SWRKitConnectionError" message CONNECTION_ERROR
        (Some response)
  | Some TIMEOUT_ERROR =>
      SWRKitError "SWRKitTimeoutError" message TIMEOUT_ERROR (Some response)
  | Some CANCEL_ERROR =>
      SWRKitError "SWRKitCancelError" message CANCEL_ERROR (Some response)
  | _ => SWRKitError "SWRKitError" message UNKNOWN_ERROR (Some response)
  end.

(** ** Effects: a log of what was called, a clock, and exceptions *)

Inductive Event : Type :=
| EvRequestTransform (i : nat) (config : SWRKitRequestConfig)
| EvFetch (fullUrl : string) (fetchConfig : FetchConfig)
| EvParseBody (response : WebResponse)
| EvResponseTransform (i : nat) (response : SWRKitResponse)
| EvMonitor (i : nat) (response : SWRKitResponse)
| EvConsoleError (error : Error).

(** [clock] holds the successive readings of [Date.now()]. *)
Record World : Type := {
  trace : list Event;
  clock : list Z
}.

(** An asynchronous computation that is awaited where it is called: it
    changes the world and either returns or throws. *)
Definition M (A : Type) : Type := World -> World * (Error + A).

Definition ret {A : Type} (a : A) : M A := fun w => (w, inr a).

Definition throw {A : Type} (e : Error) : M A := fun w => (w, inl e).

Definition bind {A B : Type} (m : M A) (k : A -> M B) : M B :=
  fun w =>
    match m w with
    | (w', inl e) => (w', inl e)
    | (w', inr a) => k a w'
    end.

(** [try { m } catch (error) { handler }] *)
Definition try_catch {A : Type} (m : M A) (handler : Error -> M A) : M A :=
  fun w =>
    match m w with
    | (w', inl e) => handler e w'
    | (w', inr a) => (w', inr a)
    end.

Definition tell (ev : Event) : M unit :=
  fun w => ({| trace := trace w ++ [ev]; clock := clock w |}, inr tt).

Definition Date_now : M Z :=
  fun w =>
    match clock w with
    | [] => (w, inr 0%Z)
    | t :: ts => ({| trace := trace w; clock := ts |}, inr t)
    end.

(** A call to a collaborator, which either answers or throws. *)
Definition lift {A : Type} (r : Error + A) : M A := fun w => (w, r).

Declare Scope m_scope.
Delimit Scope m_scope with M.
Notation "x <- m ;; k" := (bind m (fun x => k))
  (at level 61, m at next level, right associativity) : m_scope.
Notation "m ;;; k" := (bind m (fun _ => k))
  (at level 61, right associativity) : m_scope.
Local Open Scope m_scope.

(** A transform returns the object it was given, updated, or throws; a
    monitor returns nothing, or throws. *)
Definition RequestTransform : Type :=
  SWRKitRequestConfig -> Error + SWRKitRequestConfig.
Definition ResponseTransform : Type :=
  SWRKitResponse -> Error + SWRKitResponse.
Definition Monitor : Type := SWRKitResponse -> option Error.

(** ** The fetcher pipeline ([utils.ts]) *)

(** [for (const transform of transforms) await transform(config)]; the
    transforms update the one [config] object, which is threaded here. *)
Fixpoint applyRequestTransforms_from (i : nat) (config : SWRKitRequestConfig)
    (transforms : list RequestTransform) : M SWRKitRequestConfig :=
  match transforms with
  | [] => ret config
  | transform :: rest =>
      tell (EvRequestTransform i config) ;;;
      config' <- lift (transform config) ;;
      applyRequestTransforms_from (S i) config' rest
  end.

Definition applyRequestTransforms := applyRequestTransforms_from 0.

Fixpoint applyResponseTransforms_from (i : nat) (response : SWRKitResponse)
    (transforms : list ResponseTransform) : M SWRKitResponse :=
  match transforms with
  | [] => ret response
  | transform :: rest =>
      tell (EvResponseTransform i response) ;;;
      response' <- lift (transform response) ;;
      applyResponseTransforms_from (S i) response' rest
  end.

Definition applyResponseTransforms := applyResponseTransforms_from 0.

(** Every monitor runs inside its own [try]; what it throws goes to
    [console.error]. *)
Fixpoint notifyMonitors_from (i : nat) (response : SWRKitResponse)
    (monitors : list Monitor) : M unit :=
  match monitors with
  | [] => ret tt
  | monitor :: rest =>
      tell (EvMonitor i response) ;;;
      match monitor response with
      | Some error => tell (EvConsoleError error)
      | None => ret tt
      end ;;;
      notifyMonitors_from (S i) response rest
  end.

Definition notifyMonitors := notifyMonitors_from 0.

Definition shouldHaveBody (method : string) : bool :=
  existsb (String.eqb (toUpperCase method)) METHODS_WITH_BODY.

Definition normalizeResponse `{Builtins} `{Refetch} (data : JsValue)
    (response : WebResponse) (duration : Z) : SWRKitResponse :=
  let isOk := w_ok response in
  if isOk then
    mkResponse true None None data (Some (w_status response))
      (Some (headersToObject (w_headers response))) (Some duration)
  else
    let error :=
      newError ("HTTP Error " ^^ Number_toString (w_status response) ^^ ": "
                ^^ w_statusText response) in
    mkResponse false (Some (classifyProblem (Some (w_status response)) None))
      (Some error) data (Some (w_status response))
      (Some (headersToObject (w_headers response))) (Some duration).

Definition normalizeErrorResponse `{Refetch} (error : Error)
    (response : option WebResponse) (duration : option Z) : SWRKitResponse :=
  let status := option_map w_status response in
  let problem := classifyProblem status (Some error) in
  mkResponse false (Some problem) (Some error) JsUndefined status
    (option_map (fun r => headersToObject (w_headers r)) response)
    duration.

(** [xs && xs.length > 0] *)
Definition nonEmpty {A : Type} (xs : option (list A)) : option (list A) :=
  match xs with
  | Some (_ :: _) => xs
  | _ => None
  end.

(** The object literal handed to [fetchWithTimeout], with [config.options]
    spread over it.  [RequestInit] declares no [timeout], so the spread
    leaves that property alone. *)
Definition makeFetchConfig (method : string) (headers : HeadersInit)
    (body : option string) (timeout : option Z)
    (options : option RequestInit) : FetchConfig :=
  let base_method := Value method in
  let base_headers := Value headers in
  let base_body := match body with Some b => Value b | None => Undefined end in
  match options with
  | None =>
      {| fc_method := read base_method; fc_headers := read base_headers;
         fc_body := read base_body; fc_timeout := timeout |}
  | Some o =>
      {| fc_method := read (assign base_method (ri_method o));
         fc_headers := read (assign base_headers (ri_headers o));
         fc_body := read (assign base_body (ri_body o));
         fc_timeout := timeout |}
  end.

(** The timeout of one call: [config.timeout || defaultTimeout ||
    DEFAULT_TIMEOUT]. *)
Definition requestTimeout (config : SWRKitRequestConfig)
    (defaultTimeout : option Z) : option Z :=
  num_or (num_or (read (timeout config)) defaultTimeout) (Some DEFAULT_TIMEOUT).

Section CreateFetcher.

Context `{Builtins} `{Refetch}.

Variable baseURL : option string.
Variable defaultHeaders : option HeadersInit.
Variable defaultTimeout : option Z.
Variable requestTransforms : option (list RequestTransform).
Variable responseTransforms : option (list ResponseTransform).
Variable monitors : option (list Monitor).

(** The [try] block from the point where the request transforms are done:
    build the request, call the transport, normalize, transform, notify. *)
Definition fetcher_send (startTime : Z) (config : SWRKitRequestConfig)
    : M SWRKitResponse :=
  let fullUrl :=
    buildUrl baseURL (str_or (read (url config)) EmptyString)
      (read (params config)) in
  let headers := mergeHeaders defaultHeaders (read (headers config)) in
  let method :=
    str_or (option_map toUpperCase (read (method config))) "GET" in
  let body :=
    if shouldHaveBody method then
      prepareRequestBody
        (match read (data config) with Some d => d | None => JsUndefined end)
    else None in
  let fetchConfig :=
    makeFetchConfig method headers body
      (requestTimeout config defaultTimeout) (read (options config)) in
  tell (EvFetch fullUrl fetchConfig) ;;;
  response <- lift (fetchWithTimeout fullUrl fetchConfig) ;;
  now <- Date_now ;;
  let duration := (now - startTime)%Z in
  tell (EvParseBody response) ;;;
  data <- lift (parseResponseBody response) ;;
  let swrKitResponse := normalizeResponse data response duration in
  swrKitResponse <- match nonEmpty responseTransforms with
                    | Some ts => applyResponseTransforms swrKitResponse ts
                    | None => ret swrKitResponse
                    end ;;
  match nonEmpty monitors with
  | Some ms => notifyMonitors swrKitResponse ms
  | None => ret tt
  end ;;;
  if negb (ok swrKitResponse) then
    throw (createErrorFromResponse swrKitResponse)
  else ret swrKitResponse.

(** The body of the [try] block. *)
Definition fetcher_try (startTime : Z) (config : SWRKitRequestConfig)
    : M SWRKitResponse :=
  config <- match nonEmpty requestTransforms with
            | Some ts => applyRequestTransforms config ts
            | None => ret config
            end ;;
  fetcher_send startTime config.

(** The body of the [catch] block. *)
Definition fetcher_catch (startTime : Z) (error : Error) : M SWRKitResponse :=
  now <- Date_now ;;
  let duration := (now - startTime)%Z in
  let swrKitResponse := normalizeErrorResponse error None (Some duration) in
  swrKitResponse <- match nonEmpty responseTransforms with
                    | Some ts => applyResponseTransforms swrKitResponse ts
                    | None => ret swrKitResponse
                    end ;;
  match nonEmpty monitors with
  | Some ms => notifyMonitors swrKitResponse ms
  | None => ret tt
  end ;;;
  throw (createErrorFromResponse swrKitResponse).

(** [createFetcher(...)] returns this function. *)
Definition fetcher (config : SWRKitRequestConfig) : M SWRKitResponse :=
  startTime <- Date_now ;;
  try_catch (fetcher_try startTime config) (fetcher_catch startTime).

End CreateFetcher.

Definition createFetcher `{Builtins} `{Refetch} := fetcher.

Definition initialWorld (readings : list Z) : World :=
  {| trace := []; clock := readings |}.

(** ** Merging request configs ([utils.ts]) *)

(** [o[k] = v] on an association list. *)
Fixpoint alist_set {A : Type} (o : list (string * A)) (k : string) (v : A)
    : list (string * A) :=
  match o with
  | [] => [(k, v)]
  | (k', v') :: o' =>
      if k' =? k then (k', v) :: o' else (k', v') :: alist_set o' k v
  end.

Fixpoint alist_get {A : Type} (o : list (string * A)) (k : string)
    : option A :=
  match o with
  | [] => None
  | (k', v) :: o' => if k' =? k then Some v else alist_get o' k
  end.

(** [{ ...a, ...b }]; spreading [undefined] adds nothing. *)
Definition obj_spread (a b : option JsObj) : JsObj :=
  let a' := match a with Some o => o | None => [] end in
  let b' := match b with Some o => o | None => [] end in
  fold_left (fun acc kv => alist_set acc (fst kv) (snd kv)) b'
    (fold_left (fun acc kv => alist_set acc (fst kv) (snd kv)) a' []).

(** [Object.assign(merged, config)] *)
Definition Object_assign (merged config : SWRKitRequestConfig)
    : SWRKitRequestConfig :=
  {| url := assign (url merged) (url config);
     method := assign (method merged) (method config);
     params := assign (params merged) (params config);
     data := assign (data merged) (data config);
     headers := assign (headers merged) (headers config);
     timeout := assign (timeout merged) (timeout config);
     options := assign (options merged) (options config) |}.

Definition set_headers (c : SWRKitRequestConfig) (h : prop HeadersInit)
    : SWRKitRequestConfig :=
  {| url := url c; method := method c; params := params c; data := data c;
     headers := h; timeout := timeout c; options := options c |}.

Definition set_params (c : SWRKitRequestConfig) (p : prop JsObj)
    : SWRKitRequestConfig :=
  {| url := url c; method := method c; params := p; data := data c;
     headers := headers c; timeout := timeout c; options := options c |}.

(** One turn of the loop of [mergeConfigs]. *)
Definition mergeStep `{Refetch} (merged : SWRKitRequestConfig)
    (config : option SWRKitRequestConfig) : SWRKitRequestConfig :=
  match config with
  | None => merged
  | Some config =>
      let merged := Object_assign merged config in
      let merged :=
        match read (headers config) with
        | Some _ =>
            set_headers merged
              (Value (mergeHeaders (read (headers merged))
                        (read (headers config))))
        | None => merged
        end in
      match read (params config) with
      | Some _ =>
          set_params merged
            (Value (obj_spread (read (params merged)) (read (params config))))
      | None => merged
      end
  end.

Definition mergeConfigs `{Refetch}
    (configs : list (option SWRKitRequestConfig)) : SWRKitRequestConfig :=
  fold_left mergeStep configs emptyConfig.

(** ** Reading the response off a typed error *)

Definition js_of_option {A : Type} (f : A -> JsValue) (o : option A)
    : JsValue :=
  match o with
  | Some a => f a
  | None => JsUndefined
  end.

Definition js_of_problem (p : PROBLEM_CODE) : JsValue :=
  JsString
    match p with
    | NONE => "NONE"
    | CLIENT_ERROR => "CLIENT_ERROR"
    | SERVER_ERROR => "SERVER_ERROR"
    | TIMEOUT_ERROR => "TIMEOUT_ERROR"
    | CONNECTION_ERROR => "CONNECTION_ERROR"
    | NETWORK_ERROR => "NETWORK_ERROR"
    | CANCEL_ERROR => "CANCEL_ERROR"
    | UNKNOWN_ERROR => "UNKNOWN_ERROR"
    end.

(** The objects that [Error] and [SWRKitResponse] stand for. *)
Fixpoint js_of_Error (e : Error) : JsValue :=
  let 'mkError name message p st resp := e in
  JsObject
    [("name", JsString name); ("message", JsString message);
     ("problem", js_of_option js_of_problem p);
     ("status", js_of_option JsNumber st);
     ("response", match resp with
                  | Some r => js_of_Response r
                  | None => JsUndefined
                  end)]
with js_of_Response (r : SWRKitResponse) : JsValue :=
  let 'mkResponse o p err d st hs dur := r in
  JsObject
    [("ok", JsBool o);
     ("problem", match p with Some c => js_of_problem c | None => JsNull end);
     ("originalError", match err with
                       | Some e => js_of_Error e
                       | None => JsNull
                       end);
     ("data", d);
     ("status", js_of_option JsNumber st);
     ("headers",
      js_of_option
        (fun l => JsObject (map (fun kv => (fst kv, JsString (snd kv))) l))
        hs);
     ("duration", js_of_option JsNumber dur)].

(** [extractResponseFromError] on a typed error: [None] stands for
    [null].  Lemma [extractResponseFromError_typed] relates it to the
    function on arbitrary values. *)
Definition extractResponseFromTypedError (error : Error)
    : option SWRKitResponse :=
  e_response error.

(** ** The mutation trigger ([swrkit.ts]) *)

Section UseMutation.

Context `{Builtins} `{Refetch}.

Variable mutation_url : string.
Variable mutation_method : option string.
Variable requestConfig : option SWRKitRequestConfig.
Variable contextFetcher : SWRKitRequestConfig -> M SWRKitResponse.

(** [trigger] of [useSWRMutation]: returns the data or throws. *)
Variable trigger : JsValue -> M JsValue.

(** [method = 'POST'] in the destructuring of the options. *)
Definition method_or_default : string :=
  match mutation_method with
  | Some m => m
  | None => "POST"
  end.

Definition triggerConfig (variables : JsValue) : SWRKitRequestConfig :=
  {| url := Value mutation_url; method := Value method_or_default;
     params := Absent; data := Value variables; headers := Absent;
     timeout := Absent; options := Absent |}.

(** [(error as any).response = response] *)
Definition set_response (error : Error) (response : SWRKitResponse) : Error :=
  mkError (e_name error) (e_message error) (e_problem error) (e_status error)
    (Some response).

(** The fetcher handed to [useSWRMutation]. *)
Definition swrMutationFetcher (arg : JsValue) : M JsValue :=
  let fetchConfig :=
    mergeConfigs [Some (triggerConfig arg); requestConfig] in
  response <- contextFetcher fetchConfig ;;
  if negb (ok response) then
    let error :=
      match originalError response with
      | Some e => e
      | None => newError "Mutation failed"
      end in
    throw (set_response error response)
  else ret (r_data response).

Definition wrappedTrigger (variables : JsValue)
    (overrideConfig : option SWRKitRequestConfig) : M SWRKitResponse :=
  match overrideConfig with
  | Some override =>
      let mergedConfig :=
        mergeConfigs
          [Some (triggerConfig variables); requestConfig; Some override] in
      response <- contextFetcher mergedConfig ;;
      ret response
  | None =>
      try_catch
        (result <- trigger variables ;;
         ret (mkResponse true None None result None None None))
        (fun error =>
           match extractResponseFromTypedError error with
           | Some responseData => ret responseData
           | None => throw error
           end)
  end.

End UseMutation.

(** ** The success handler of a mutation ([swrkit.ts])

    The handler given to [useSWRMutation] starts one [globalMutate] per
    invalidated key, awaits them together and then calls the user's
    [onSuccess].  The calls settle in an order the scheduler picks. *)

Inductive MutationEvent : Type :=
| EvMutateCalled (k : string)
| EvMutateSettled (k : string) (fulfilled : bool)
| EvUserOnSuccess (data key : JsValue).

Inductive Settlement : Type :=
| Fulfilled
| Rejected
| StillPending.

Section SuccessHandler.

Variable invalidateKeys : list string.
Variable onSuccess : bool.

(** Whether [globalMutate(k)] fulfils or rejects. *)
Variable fulfils : string -> bool.

(** [await Promise.all(promises)].  [pending] lists the indices of the
    promises not settled yet, [order] the indices in the order in which the
    scheduler settles them.  The await resumes when the last promise is
    fulfilled, throws at the first rejection, and does not resume while a
    promise stays pending. *)
Fixpoint await_all (pending : list nat) (order : list nat)
    : list MutationEvent * Settlement :=
  match pending with
  | [] => ([], Fulfilled)
  | _ :: _ =>
      match order with
      | [] => ([], StillPending)
      | i :: rest =>
          if existsb (Nat.eqb i) pending then
            match nth_error invalidateKeys i with
            | Some k =>
                if fulfils k then
                  let (t, s) := await_all (remove Nat.eq_dec i pending) rest in
                  (EvMutateSettled k true :: t, s)
                else ([EvMutateSettled k false], Rejected)
            | None => await_all pending rest
            end
          else await_all pending rest
      end
  end.

(** The [onSuccess] option passed to [useSWRMutation]; [onSuccess] tells
    whether the user supplied a callback. *)
Definition onSuccessHandler (data key : JsValue) (order : list nat)
    : list MutationEvent :=
  let (t, s) :=
    if (0 <? List.length invalidateKeys)%nat then
      let (t, s) :=
        await_all (seq 0 (List.length invalidateKeys)) order in
      (map EvMutateCalled invalidateKeys ++ t, s)
    else ([], Fulfilled) in
  match s with
  | Fulfilled => if onSuccess then t ++ [EvUserOnSuccess data key] else t
  | _ => t
  end.

End SuccessHandler.

(** ** The authentication transform ([context.tsx]) *)

Record AuthConfig : Type := {
  accessTokenCookie : prop string;
  authHeader : prop string;
  tokenPrefix : prop string;
  autoAuth : prop bool
}.

Definition DEFAULT_AUTH_CONFIG : AuthConfig :=
  {| accessTokenCookie := Value "access_token";
     authHeader := Value "Authorization";
     tokenPrefix := Value "Bearer";
     autoAuth := Value true |}.

(** [{ ...a, ...b }] on authentication configs. *)
Definition spreadAuth (a : AuthConfig) (b : option AuthConfig) : AuthConfig :=
  match b with
  | None => a
  | Some b =>
      {| accessTokenCookie :=
           assign (accessTokenCookie a) (accessTokenCookie b);
         authHeader := assign (authHeader a) (authHeader b);
         tokenPrefix := assign (tokenPrefix a) (tokenPrefix b);
         autoAuth := assign (autoAuth a) (autoAuth b) |}
  end.

(** [Headers.prototype.set]: the first entry of that name takes the value,
    further entries of that name go, and a missing name is appended. *)
Fixpoint Headers_set_lower (h : list (string * string)) (n value : string)
    : list (string * string) :=
  match h with
  | [] => [(n, value)]
  | (k, v) :: t =>
      if k =? n then (n, value) :: filter (fun kv => negb (fst kv =? n)) t
      else (k, v) :: Headers_set_lower t n value
  end.

Definition Headers_set (h : list (string * string)) (name value : string)
    : list (string * string) :=
  Headers_set_lower h (toLowerCase name) value.

(** [Headers.prototype.get] for a name stored once. *)
Definition Headers_get (h : list (string * string)) (name : string)
    : option string :=
  alist_get h (toLowerCase name).

(** What [findIndex] in the array branch looks for. *)
Definition array_has_header (entries : list (string * string))
    (name : string) : bool :=
  existsb (fun kv => toLowerCase (fst kv) =? toLowerCase name) entries.

(** The value an entry array carries for a header name. *)
Definition array_get_header (entries : list (string * string))
    (name : string) : option string :=
  option_map snd
    (find (fun kv => toLowerCase (fst kv) =? toLowerCase name) entries).

Section AuthTransform.

Variable userAuth : option AuthConfig.
Variable getAccessToken : option (option string -> option string).

Definition authTransform (config : SWRKitRequestConfig)
    : SWRKitRequestConfig :=
  let authConfig := spreadAuth DEFAULT_AUTH_CONFIG userAuth in
  let enabled :=
    match read (autoAuth authConfig) with
    | Some false => false
    | _ => true
    end in
  match enabled, getAccessToken with
  | true, Some getAccessToken =>
      match getAccessToken (read (accessTokenCookie authConfig)) with
      | Some token =>
          if token =? EmptyString then config
          else
            let authHeader := str_or (read (authHeader authConfig))
                                "Authorization" in
            let tokenPrefix := str_or (read (tokenPrefix authConfig))
                                 "Bearer" in
            let authValue := tokenPrefix ^^ " " ^^ token in
            let current :=
              match read (headers config) with
              | Some h => h
              | None => HRecord []
              end in
            match current with
            | HInstance entries =>
                set_headers config
                  (Value (HInstance (Headers_set entries authHeader authValue)))
            | HArray entries =>
                if array_has_header entries authHeader then
                  set_headers config (Value (HArray entries))
                else
                  set_headers config
                    (Value (HArray (entries ++ [(authHeader, authValue)])))
            | HRecord fields =>
                if str_or (alist_get fields authHeader) EmptyString
                   =? EmptyString then
                  set_headers config
                    (Value (HRecord (alist_set fields authHeader authValue)))
                else set_headers config (Value (HRecord fields))
            end
      | None => config
      end
  | _, _ => config
  end.

End AuthTransform.

(** The value a config carries for a header name, in each shape. *)
Definition header_of (config : SWRKitRequestConfig) (name : string)
    : option string :=
  match read (headers config) with
  | Some (HInstance entries) => Headers_get entries name
  | Some (HArray entries) => array_get_header entries name
  | Some (HRecord fields) => alist_get fields name
  | None => None
  end.

(** ** Instances of the collaborators, for running the definitions *)

Definition decimal (n : Z) : string := NilZero.string_of_int (Z.to_int n).

Definition quoted (s : string) : string :=
  let q := String (ascii_of_nat 34) EmptyString in
  q ^^ s ^^ q.

(** JSON text of plain data whose strings need no escaping. *)
Fixpoint json_text (v : JsValue) : option string :=
  match v with
  | JsUndefined => None
  | JsNull => Some "null"
  | JsBool true => Some "true"
  | JsBool false => Some "false"
  | JsNumber n => Some (decimal n)
  | JsString s => Some (quoted s)
  | JsArray l =>
      Some ("[" ^^
            String.concat ","
              (map (fun e => match json_text e with
                             | Some s => s
                             | None => "null"
                             end) l) ^^ "]")
  | JsObject o =>
      Some ("{" ^^
            String.concat ","
              (flat_map (fun kv => let '(k, e) := kv in
                                   match json_text e with
                                   | Some s => [quoted k ^^ ":" ^^ s]
                                   | None => []
                                   end) o) ^^ "}")
  end.

Definition plainBuiltins : Builtins :=
  {| Number_toString := decimal; JSON_stringify := json_text |}.

(** A classifier in the style of the documented problem codes: the status
    decides when there is one, else the name of the cause. *)
Definition classifyByStatus (st : option Z) (cause : option Error)
    : PROBLEM_CODE :=
  match st with
  | Some n =>
      if ((400 <=? n) && (n <? 500))%Z then CLIENT_ERROR
      else if ((500 <=? n) && (n <? 600))%Z then SERVER_ERROR
      else UNKNOWN_ERROR
  | None =>
      match cause with
      | Some e =>
          if e_name e =? "TimeoutError" then TIMEOUT_ERROR
          else if e_name e =? "AbortError" then CANCEL_ERROR
          else UNKNOWN_ERROR
      | None => UNKNOWN_ERROR
      end
  end.

(** Header merging on records, the later source winning per name. *)
Definition entriesOf (h : option HeadersInit) : list (string * string) :=
  match h with
  | Some (HInstance l) | Some (HArray l) | Some (HRecord l) => l
  | None => []
  end.

Definition mergeRecords (a b : option HeadersInit) : HeadersInit :=
  HRecord
    (fold_left (fun acc kv => alist_set acc (fst kv) (snd kv)) (entriesOf b)
       (entriesOf a)).

(** A [Refetch] over a given network. *)
Definition refetchOver
    (network : string -> FetchConfig -> Error + WebResponse)
    (parse : WebResponse -> Error + JsValue) : Refetch :=
  {| classifyProblem := classifyByStatus;
     buildUrl := fun base path _ => str_or base EmptyString ^^ path;
     mergeHeaders := mergeRecords;
     headersToObject := fun h => h;
     prepareRequestBody := json_text;
     fetchWithTimeout := network;
     parseResponseBody := parse |}.

(** A server that answers every request with 404 and a JSON error body. *)
Definition notFound : WebResponse :=
  {| w_ok := false; w_status := 404; w_statusText := "Not Found";
     w_headers := [("content-type", "application/json")] |}.

Definition notFoundBody : JsValue :=
  JsObject [("error", JsString "not found")].

Definition refetch404 : Refetch :=
  refetchOver (fun _ _ => inr notFound) (fun _ => inr notFoundBody).

(** A server that answers every request with 200 and a JSON body. *)
Definition okResponse : WebResponse :=
  {| w_ok := true; w_status := 200; w_statusText := "OK";
     w_headers := [("content-type", "application/json")] |}.

Definition okBody : JsValue := JsObject [("id", JsNumber 1)].

Definition refetch200 : Refetch :=
  refetchOver (fun _ _ => inr okResponse) (fun _ => inr okBody).

Definition getUsers : SWRKitRequestConfig :=
  {| url := Value "/users"; method := Value "GET"; params := Absent;
     data := Absent; headers := Absent; timeout := Absent;
     options := Absent |}.

Definition zeroTimeout : SWRKitRequestConfig :=
  {| url := Value "/users"; method := Value "GET"; params := Absent;
     data := Absent; headers := Absent; timeout := Value 0%Z;
     options := Absent |}.

(** Two configs that set different parameters and different headers. *)
Definition pageConfig : SWRKitRequestConfig :=
  {| url := Value "/users"; method := Value "GET";
     params := Value [("page", JsNumber 1)]; data := Absent;
     headers := Value (HRecord [("X-Trace", "on")]); timeout := Absent;
     options := Absent |}.

Definition limitConfig : SWRKitRequestConfig :=
  {| url := Absent; method := Absent;
     params := Value [("limit", JsNumber 10)]; data := Absent;
     headers := Value (HRecord [("Accept", "text/csv")]);
     timeout := Value 3000%Z; options := Absent |}.

(** A request that carries its own credentials, in each headers shape,
    and a cookie store that holds a token. *)
Definition withHeaders (h : HeadersInit) : SWRKitRequestConfig :=
  {| url := Value "/users"; method := Value "GET"; params := Absent;
     data := Absent; headers := Value h; timeout := Absent;
     options := Absent |}.

Definition cookieToken : option (option string -> option string) :=
  Some (fun _ => Some "tok").

(** A response transform that leaves the response as it is, one that
    throws, and a monitor that returns normally. *)
Definition keepResponse : ResponseTransform := fun r => inr r.

Definition brokenTransform : ResponseTransform :=
  fun _ => inl (newError "transform failed").

Definition quietMonitor : Monitor := fun _ => None.

(** A mutation against the server that answers 404, with the fetcher of
    [createFetcher] and no transforms.  [trigger] of [useSWRMutation], with
    its default [throwOnError] and no cache option, is to its caller the
    mutation fetcher: its data or its exception. *)
Definition fetcher404 : SWRKitRequestConfig -> M SWRKitResponse :=
  @createFetcher plainBuiltins refetch404 None None None None None None.

Definition renameUser : JsValue := JsObject [("name", JsString "Jane Doe")].

Definition withTimeout : SWRKitRequestConfig :=
  {| url := Absent; method := Absent; params := Absent; data := Absent;
     headers := Absent; timeout := Value 3000%Z; options := Absent |}.

Definition trigger404 : JsValue -> M JsValue :=
  @swrMutationFetcher refetch404 "/users/1" (Some "PUT") None fetcher404.

Definition wrappedTrigger404
    : JsValue -> option SWRKitRequestConfig -> M SWRKitResponse :=
  @wrappedTrigger refetch404 "/users/1" (Some "PUT") None fetcher404
    trigger404.

(** ** Vocabulary of the statements *)

(** Entries ordered by parameter name. *)
Definition le_entry (a b : string * JsValue) : Prop :=
  le_string (fst a) (fst b).

(** [name=JSON(value)] *)
Definition serializeEntry `{Builtins} (kv : string * JsValue) : string :=
  fst kv ^^ "=" ^^ template (JSON_stringify (snd kv)).

(** The timeout as the specification words it, with [??]: the first of
    [config.timeout], the default timeout and 10000 that is defined. *)
Definition nullishTimeout (config : SWRKitRequestConfig)
    (defaultTimeout : option Z) : Z :=
  match read (timeout config) with
  | Some t => t
  | None =>
      match defaultTimeout with
      | Some d => d
      | None => 10000%Z
      end
  end.

(** The first of [config.timeout], the default timeout and 10000 that is
    defined and not zero. *)
Definition nonZeroTimeout (config : SWRKitRequestConfig)
    (defaultTimeout : option Z) : Z :=
  let fallback :=
    match defaultTimeout with
    | Some d => if (d =? 0)%Z then 10000%Z else d
    | None => 10000%Z
    end in
  match read (timeout config) with
  | Some t => if (t =? 0)%Z then fallback else t
  | None => fallback
  end.

(** The transport calls in a log, and their timeouts. *)
Definition isFetch (ev : Event) : bool :=
  match ev with
  | EvFetch _ _ => true
  | _ => false
  end.

Definition fetchTimeouts (t : list Event) : list (option Z) :=
  flat_map (fun ev => match ev with
                      | EvFetch _ fetchConfig => [fc_timeout fetchConfig]
                      | _ => []
                      end) t.

(** The calls of response transforms and monitors in a log. *)
Definition isResponseStep (ev : Event) : bool :=
  match ev with
  | EvResponseTransform _ _ | EvMonitor _ _ => true
  | _ => false
  end.

(** A computation that only appends to the log, and no transport call. *)
Definition extends {A : Type} (m : M A) : Prop :=
  forall w, exists t,
    trace (fst (m w)) = trace w ++ t /\
    forallb (fun ev => negb (isFetch ev)) t = true.

(** The config as the request transforms leave it, or what one of them
    throws. *)
Fixpoint runRequestTransforms (config : SWRKitRequestConfig)
    (transforms : list RequestTransform) : Error + SWRKitRequestConfig :=
  match transforms with
  | [] => inr config
  | transform :: rest =>
      match transform config with
      | inl e => inl e
      | inr config' => runRequestTransforms config' rest
      end
  end.

Definition transformedConfig
    (requestTransforms : option (list RequestTransform))
    (config : SWRKitRequestConfig) : Error + SWRKitRequestConfig :=
  match requestTransforms with
  | Some ts => runRequestTransforms config ts
  | None => inr config
  end.

(** The header name and value the authentication transform works with. *)
Definition effectiveAuthHeader (userAuth : option AuthConfig) : string :=
  str_or (read (authHeader (spreadAuth DEFAULT_AUTH_CONFIG userAuth)))
    "Authorization".

Definition effectiveAuthValue (userAuth : option AuthConfig) (token : string)
    : string :=
  str_or (read (tokenPrefix (spreadAuth DEFAULT_AUTH_CONFIG userAuth)))
    "Bearer" ^^ " " ^^ token.


(** ** Header helpers of the provider ([context.tsx])

    [setHeader], [setHeaders] and [deleteHeader] update the [headers] of
    the provider's config and leave its other properties alone; they are
    written here on that property. *)

(** The array branch of [setHeader]: the first entry of that name, under
    any casing, is replaced by [[name, value]]; with no such entry the pair
    is pushed. *)
Fixpoint array_set_header (entries : list (string * string))
    (name value : string) : list (string * string) :=
  match entries with
  | [] => [(name, value)]
  | (k, v) :: rest =>
      if toLowerCase k =? toLowerCase name then (name, value) :: rest
      else (k, v) :: array_set_header rest name value
  end.

(** [Headers.prototype.delete] *)
Definition Headers_delete (h : list (string * string)) (name : string)
    : list (string * string) :=
  filter (fun kv => negb (fst kv =? toLowerCase name)) h.

(** [delete o[k]] *)
Definition alist_delete {A : Type} (o : list (string * A)) (k : string)
    : list (string * A) :=
  filter (fun kv => negb (fst kv =? k)) o.

Definition setHeader (prev : option HeadersInit) (name value : string)
    : HeadersInit :=
  match prev with
  | None => HRecord (alist_set [] name value)
  | Some (HInstance entries) => HInstance (Headers_set entries name value)
  | Some (HArray entries) => HArray (array_set_header entries name value)
  | Some (HRecord fields) => HRecord (alist_set fields name value)
  end.

(** [Object.entries(headers).forEach(([name, value]) => setHeader(name,
    value))]: the queued updates apply in order. *)
Definition setHeaders (prev : option HeadersInit)
    (headers : list (string * string)) : option HeadersInit :=
  fold_left (fun acc nv => Some (setHeader acc (fst nv) (snd nv))) headers
    prev.

Definition deleteHeader (prev : option HeadersInit) (name : string)
    : option HeadersInit :=
  match prev with
  | None => None
  | Some (HInstance entries) => Some (HInstance (Headers_delete entries name))
  | Some (HArray entries) =>
      Some (HArray
              (filter (fun kv => negb (toLowerCase (fst kv)
                                       =? toLowerCase name)) entries))
  | Some (HRecord fields) => Some (HRecord (alist_delete fields name))
  end.

(** ** Pagination ([swrkit.ts], [useInfiniteScroll]) *)

(** [data[data.length - 1]] *)
Definition lastPage (pages : list JsValue) : JsValue :=
  last pages JsUndefined.

(** [data] is the array of pages or [undefined]. *)
Definition hasMore (data : option (list JsValue)) (pageSize : Z) : bool :=
  match data with
  | None => false
  | Some pages =>
      let lastPage := lastPage pages in
      if negb (truthy lastPage) then false
      else
        match lastPage with
        | JsArray items => (pageSize <=? Z.of_nat (List.length items))%Z
        | JsObject o =>
            if obj_has o "data" then
              match obj_get o "data" with
              | JsArray items => (pageSize <=? Z.of_nat (List.length items))%Z
              | _ => false
              end
            else true
        | _ => true
        end
  end.

(** [loadMore]: the new page count. *)
Definition loadMore (isValidating hasMore : bool) (size : Z) : Z :=
  if negb isValidating && hasMore then (size + 1)%Z else size.

Definition isLoadingMore (isValidating : bool) (data : option (list JsValue))
    : bool :=
  isValidating &&
  match data with
  | Some pages => (0 <? List.length pages)%nat
  | None => false
  end.

(** ** Retry with backoff ([middleware.ts], [retryMiddleware]) *)

Record RetryOptions : Type := {
  maxRetries : option Z;
  baseDelay : option Z;
  maxDelay : option Z
}.

Definition option_default {A : Type} (o : option A) (d : A) : A :=
  match o with
  | Some a => a
  | None => d
  end.

(** [onErrorRetry]: [Some delay] when a revalidation is scheduled after
    [delay] ms, [None] when the handler returns without scheduling one.
    [status] is [error.status], [retryCount] is [opts.retryCount]. *)
Definition onErrorRetry (options : RetryOptions) (status : option Z)
    (retryCount : option nat) : option Z :=
  let maxRetries := option_default (maxRetries options) 3%Z in
  let baseDelay := option_default (baseDelay options) 1000%Z in
  let maxDelay := option_default (maxDelay options) 30000%Z in
  let retryCount := Z.of_nat (option_default retryCount 0%nat) in
  if (maxRetries <=? retryCount)%Z then None
  else
    match status with
    | Some st =>
        if negb (st =? 0)%Z && (400 <=? st)%Z && (st <? 500)%Z then None
        else Some (Z.min (baseDelay * 2 ^ retryCount) maxDelay)
    | None => Some (Z.min (baseDelay * 2 ^ retryCount) maxDelay)
    end.

(** ** The fetcher of [useFetch] and preloading ([swrkit.ts], [context.tsx]) *)

(** [{ url, method: 'GET', params }] *)
Definition getConfig (url : string) (params : option JsObj)
    : SWRKitRequestConfig :=
  {| url := Value url; method := Value "GET";
     params := match params with Some p => Value p | None => Undefined end;
     data := Absent; headers := Absent; timeout := Absent;
     options := Absent |}.

Section UseFetch.

Context `{Builtins} `{Refetch}.

Variable fetch_params : option JsObj.
Variable stableRequestConfig : option SWRKitRequestConfig.
Variable contextFetcher : SWRKitRequestConfig -> M SWRKitResponse.

(** The function [useFetch] hands to [useSWR], which calls it with the
    cache key. *)
Definition useFetch_fetcher (fetchKey : JsValue) : M JsValue :=
  match extractUrlFromKey fetchKey with
  | JsString url =>
      if url =? EmptyString then
        throw (newError "Invalid cache key: could not extract URL")
      else
        let fetchConfig :=
          mergeConfigs [Some (getConfig url fetch_params);
                        stableRequestConfig] in
        response <- contextFetcher fetchConfig ;;
        ret (r_data response)
  | _ => throw (newError "Invalid cache key: could not extract URL")
  end.

End UseFetch.

Section Preload.

Context `{Builtins}.

(** [mutate] of SWR: [globalMutate(key, data, shouldRevalidate)]. *)
Variable globalMutate : JsValue -> JsValue -> bool -> M unit.

(** [console.debug('Preload failed for', key, error)]; the value caught
    may be [null]. *)
Variable console_debug : JsValue -> option Error -> M unit.

(** [preload(key, params, fetcher)] *)
Definition preload (key : JsValue) (params : option JsObj)
    (fetcher : option (SWRKitRequestConfig -> M SWRKitResponse)) : M unit :=
  match fetcher with
  | None =>
      throw (newError
               ("Fetcher is required for preload. " ^^
                "Use useSWRKitPreload() hook to get one."))
  | Some fetcher =>
      let cacheKey := buildCacheKey key params in
      if negb (truthy cacheKey) then ret tt
      else
        match extractUrlFromKey cacheKey with
        | JsString url =>
            if url =? EmptyString then ret tt
            else
              response <- fetcher (getConfig url params) ;;
              if ok response && truthy (r_data response) then
                globalMutate cacheKey (r_data response) false
              else ret tt
        | _ => ret tt
        end
  end.

(** The callback of [useSWRKitPreload].  Its [try] covers the fetch, the
    [throw response.originalError] of a response that is not ok, and the
    cache write; whatever is thrown there goes to [console.debug]. *)
Definition useSWRKitPreload
    (fetcher : SWRKitRequestConfig -> M SWRKitResponse)
    (key : JsValue) (params : option JsObj) : M unit :=
  let cacheKey := buildCacheKey key params in
  if negb (truthy cacheKey) then ret tt
  else
    match extractUrlFromKey cacheKey with
    | JsString url =>
        if url =? EmptyString then ret tt
        else
          fun w =>
            match fetcher (getConfig url params) w with
            | (w', inl error) => console_debug key (Some error) w'
            | (w', inr response) =>
                if negb (ok response) then
                  console_debug key (originalError response) w'
                else
                  let data := r_data response in
                  if truthy data then
                    match globalMutate cacheKey data false w' with
                    | (w'', inl error) => console_debug key (Some error) w''
                    | (w'', inr _) => (w'', inr tt)
                    end
                  else (w', inr tt)
            end
    | _ => ret tt
    end.

End Preload.

(** ** Mock fetchers of the test utilities ([testing.ts]) *)

(** An entry of the table of [createMockFetcher]: data, or an [Error]. *)
Inductive MockEntry : Type :=
| MockData (data : JsValue)
| MockError (error : Error).

(** [createMockFetcher(responses)(config)], after its delay. *)
Definition createMockFetcher (responses : list (string * MockEntry))
    (config : SWRKitRequestConfig) : SWRKitResponse :=
  let url := str_or (read (url config)) EmptyString in
  match alist_get responses url with
  | Some (MockError response) =>
      mkResponse false (Some UNKNOWN_ERROR) (Some response) JsUndefined
        (Some 500%Z) (Some []) None
  | Some (MockData response) =>
      mkResponse true None None response (Some 200%Z)
        (Some [("content-type", "application/json")]) None
  | None =>
      mkResponse true None None JsUndefined (Some 200%Z)
        (Some [("content-type", "application/json")]) None
  end.

(** [createTrackingMockFetcher]: the state is the array [requests]. *)
Definition trackingFetcher (responses : list (string * MockEntry))
    (requests : list SWRKitRequestConfig) (config : SWRKitRequestConfig)
    : list SWRKitRequestConfig * SWRKitResponse :=
  (requests ++ [config], createMockFetcher responses config).

Definition clearRequests (requests : list SWRKitRequestConfig)
    : list SWRKitRequestConfig := [].

(** [createFailingMockFetcher]: the state is [requestCount]. *)
Definition failingFetcher (successData : JsValue) (failAfter : Z)
    (requestCount : Z) (config : SWRKitRequestConfig) : Z * SWRKitResponse :=
  let requestCount := (requestCount + 1)%Z in
  if (failAfter <? requestCount)%Z then
    (requestCount,
     mkResponse false (Some SERVER_ERROR) (Some (newError "Mock error"))
       JsUndefined (Some 500%Z) (Some []) None)
  else
    (requestCount,
     mkResponse true None None successData (Some 200%Z)
       (Some [("content-type", "application/json")]) None).

(** [createStatusMockFetcher(responses)(config)] *)
Definition createStatusMockFetcher `{Builtins}
    (responses : list (string * (Z * JsValue)))
    (config : SWRKitRequestConfig) : SWRKitResponse :=
  let url := str_or (read (url config)) EmptyString in
  match alist_get responses url with
  | None =>
      mkResponse false (Some CLIENT_ERROR) (Some (newError "Not found"))
        JsUndefined (Some 404%Z) (Some []) None
  | Some (st, data) =>
      let isOk := (200 <=? st)%Z && (st <? 300)%Z in
      let problem :=
        if isOk then None
        else if (500 <=? st)%Z then Some SERVER_ERROR
        else Some CLIENT_ERROR in
      mkResponse isOk problem
        (if isOk then None
         else Some (newError ("HTTP " ^^ Number_toString st)))
        data (Some st) (Some [("content-type", "application/json")]) None
  end.

(** ** Vocabulary of the further statements *)

(** What a log records of the monitors, of [console.error] and of the
    transforms. *)
Definition monitorCalls (t : list Event) : list (nat * SWRKitResponse) :=
  flat_map (fun ev => match ev with
                      | EvMonitor i r => [(i, r)]
                      | _ => []
                      end) t.

Definition consoleErrors (t : list Event) : list Error :=
  flat_map (fun ev => match ev with
                      | EvConsoleError e => [e]
                      | _ => []
                      end) t.

Definition requestTransformCalls (t : list Event)
    : list (nat * SWRKitRequestConfig) :=
  flat_map (fun ev => match ev with
                      | EvRequestTransform i c => [(i, c)]
                      | _ => []
                      end) t.

Definition responseTransformCalls (t : list Event)
    : list (nat * SWRKitResponse) :=
  flat_map (fun ev => match ev with
                      | EvResponseTransform i r => [(i, r)]
                      | _ => []
                      end) t.

Definition fetchCalls (t : list Event) : list (string * FetchConfig) :=
  flat_map (fun ev => match ev with
                      | EvFetch u fc => [(u, fc)]
                      | _ => []
                      end) t.

(** The argument of every transform that gets called: the first one
    receives the initial value, each further one what its predecessor
    returned, and nothing is called after a transform that throws. *)
Fixpoint transformInputs {A : Type} (a : A) (ts : list (A -> Error + A))
    : list A :=
  match ts with
  | [] => []
  | t :: rest =>
      a :: match t a with
           | inr a' => transformInputs a' rest
           | inl _ => []
           end
  end.

Fixpoint runResponseTransforms (r : SWRKitResponse)
    (ts : list ResponseTransform) : Error + SWRKitResponse :=
  match ts with
  | [] => inr r
  | t :: rest =>
      match t r with
      | inl e => inl e
      | inr r' => runResponseTransforms r' rest
      end
  end.

(** [l] numbered from [i]. *)
Fixpoint numberFrom {A : Type} (i : nat) (l : list A) : list (nat * A) :=
  match l with
  | [] => []
  | a :: rest => (i, a) :: numberFrom (S i) rest
  end.

(** The request a fetcher builds from a config. *)
Definition requestOf `{Refetch} (baseURL : option string)
    (defaultHeaders : option HeadersInit) (defaultTimeout : option Z)
    (config : SWRKitRequestConfig) : string * FetchConfig :=
  let method := str_or (option_map toUpperCase (read (method config))) "GET" in
  (buildUrl baseURL (str_or (read (url config)) EmptyString)
     (read (params config)),
   makeFetchConfig method
     (mergeHeaders defaultHeaders (read (headers config)))
     (if shouldHaveBody method then
        prepareRequestBody
          (match read (data config) with Some d => d | None => JsUndefined end)
      else None)
     (requestTimeout config defaultTimeout) (read (options config))).

(** The configs of a list with its [undefined] entries left out. *)
Definition present {A : Type} (l : list (option A)) : list A :=
  flat_map (fun o => match o with Some a => [a] | None => [] end) l.

(** The last property of a list that is there, [undefined] included. *)
Fixpoint latest {A : Type} (l : list (prop A)) : prop A :=
  match l with
  | [] => Absent
  | p :: rest =>
      match latest rest with
      | Absent => p
      | q => q
      end
  end.

(** The value some headers carry for a name: [Headers] instances and entry
    arrays are read without regard to case, plain records under the exact
    name. *)
Definition headerValue (h : option HeadersInit) (name : string)
    : option string :=
  match h with
  | Some (HInstance entries) => Headers_get entries name
  | Some (HArray entries) => array_get_header entries name
  | Some (HRecord fields) => alist_get fields name
  | None => None
  end.

(** The token the authentication transform finds: none when [autoAuth] is
    [false], when the provider has no [getAccessToken], or when that
    answers [null] or the empty string. *)
Definition availableToken (userAuth : option AuthConfig)
    (getAccessToken : option (option string -> option string))
    : option string :=
  let authConfig := spreadAuth DEFAULT_AUTH_CONFIG userAuth in
  match read (autoAuth authConfig), getAccessToken with
  | Some false, _ => None
  | _, None => None
  | _, Some get =>
      match get (read (accessTokenCookie authConfig)) with
      | Some token => if token =? EmptyString then None else Some token
      | None => None
      end
  end.

(** Headers with the header [name: value] added where it is not there. *)
Definition withAuthHeader (name value : string) (current : HeadersInit)
    : HeadersInit :=
  match current with
  | HInstance entries => HInstance (Headers_set entries name value)
  | HArray entries =>
      if array_has_header entries name then HArray entries
      else HArray (entries ++ [(name, value)])
  | HRecord fields =>
      if str_or (alist_get fields name) EmptyString =? EmptyString then
        HRecord (alist_set fields name value)
      else HRecord fields
  end.

(** The retry options with their defaults. *)
Definition maxRetriesOf (options : RetryOptions) : Z :=
  option_default (maxRetries options) 3%Z.
Definition baseDelayOf (options : RetryOptions) : Z :=
  option_default (baseDelay options) 1000%Z.
Definition maxDelayOf (options : RetryOptions) : Z :=
  option_default (maxDelay options) 30000%Z.

(** The URL that preloading fetches for a key, if any. *)
Definition preloadUrl `{Builtins} (key : JsValue) (params : option JsObj)
    : option string :=
  match extractUrlFromKey (buildCacheKey key params) with
  | JsString url => if url =? EmptyString then None else Some url
  | _ => None
  end.

(** A stateful fetcher called on a list of configs in turn. *)
Fixpoint runCalls {S : Type}
    (f : S -> SWRKitRequestConfig -> S * SWRKitResponse) (s : S)
    (configs : list SWRKitRequestConfig) : S * list SWRKitResponse :=
  match configs with
  | [] => (s, [])
  | c :: rest =>
      let (s', r) := f s c in
      let (s'', rs) := runCalls f s' rest in
      (s'', r :: rs)
  end.

(** A response is well formed when it is ok exactly when it has no problem
    code, and exactly when it has no original error. *)
Definition wellFormed (r : SWRKitResponse) : Prop :=
  (ok r = true <-> problem r = None) /\
  (ok r = true <-> originalError r = None).

(** * Properties *)

(** ** The order of strings *)

Lemma ascii_compare_refl (a : ascii) : Ascii.compare a a = Eq.
Proof. unfold Ascii.compare. apply N.compare_refl. Qed.

Lemma string_compare_refl (s : string) : String.compare s s = Eq.
Proof.
  induction s as [|a s IH]; simpl; [reflexivity|].
  now rewrite ascii_compare_refl.
Qed.

Lemma le_string_refl (s : string) : le_string s s.
Proof. unfold le_string, String.leb. now rewrite string_compare_refl. Qed.

Lemma string_compare_not_Gt_trans (s1 s2 s3 : string) :
  String.compare s1 s2 <> Gt -> String.compare s2 s3 <> Gt ->
  String.compare s1 s3 <> Gt.
Proof.
  revert s2 s3.
  induction s1 as [|a s1 IH]; intros [|b s2] [|c s3]; simpl;
    try congruence.
  destruct (Ascii.compare a b) eqn:Hab; try congruence;
    destruct (Ascii.compare b c) eqn:Hbc; try congruence.
  - apply Ascii.compare_eq_iff in Hab, Hbc. subst.
    rewrite ascii_compare_refl. apply IH.
  - apply Ascii.compare_eq_iff in Hab. subst. rewrite Hbc. congruence.
  - apply Ascii.compare_eq_iff in Hbc. subst. rewrite Hab. congruence.
  - intros _ _. unfold Ascii.compare in *.
    rewrite N.compare_lt_iff in Hab, Hbc.
    assert (Hac : (N_of_ascii a < N_of_ascii c)%N) by lia.
    rewrite <- N.compare_lt_iff in Hac. rewrite Hac. congruence.
Qed.

Lemma le_string_trans (a b c : string) :
  le_string a b -> le_string b c -> le_string a c.
Proof.
  unfold le_string, String.leb. intros Hab Hbc.
  pose proof (string_compare_not_Gt_trans a b c) as Ht.
  destruct (String.compare a b); try discriminate;
    destruct (String.compare b c); try discriminate;
    destruct (String.compare a c); try reflexivity;
    exfalso; apply Ht; congruence.
Qed.

Lemma le_string_antisym (a b : string) :
  le_string a b -> le_string b a -> a = b.
Proof. apply String.leb_antisym. Qed.

Lemma le_string_total (a b : string) : le_string a b \/ le_string b a.
Proof. apply String.leb_total. Qed.

(** ** [Array_sort] is a sort, and every sort agrees with it *)

Lemma insert_perm (k : string) (l : list string) :
  Permutation (insert k l) (k :: l).
Proof.
  induction l as [|h t IH]; simpl; [reflexivity|].
  destruct (k <=? h)%string; [reflexivity|].
  rewrite IH. apply perm_swap.
Qed.

Lemma Array_sort_perm (l : list string) : Permutation (Array_sort l) l.
Proof.
  induction l as [|h t IH]; simpl; [reflexivity|].
  rewrite insert_perm. now constructor.
Qed.

Lemma insert_sorted (k : string) (l : list string) :
  StronglySorted le_string l -> StronglySorted le_string (insert k l).
Proof.
  induction 1 as [|h t Hs IH Hall]; simpl.
  - repeat constructor.
  - destruct (k <=? h)%string eqn:Hk.
    + constructor; [now constructor|].
      constructor; [exact Hk|].
      eapply Forall_impl; [|exact Hall].
      intros x Hx. eapply le_string_trans; eassumption.
    + constructor; [exact IH|].
      eapply Permutation_Forall.
      * symmetry. apply insert_perm.
      * constructor; [|exact Hall].
        destruct (le_string_total k h) as [Hle|Hle]; [|exact Hle].
        unfold le_string in Hle. congruence.
Qed.

Lemma Array_sort_sorted (l : list string) :
  StronglySorted le_string (Array_sort l).
Proof.
  induction l as [|h t IH]; simpl; [constructor|].
  now apply insert_sorted.
Qed.

Lemma sorted_perm_unique (l1 l2 : list string) :
  StronglySorted le_string l1 -> StronglySorted le_string l2 ->
  Permutation l1 l2 -> l1 = l2.
Proof.
  intros H1. revert l2.
  induction H1 as [|a t1 Hs1 IH Hall1]; intros l2 H2 Hp.
  - apply Permutation_nil in Hp. now subst.
  - destruct H2 as [|b t2 Hs2 Hall2].
    + symmetry in Hp. apply Permutation_nil in Hp. discriminate.
    + assert (Hab : a = b).
      { assert (Ha : In a (b :: t2))
          by (eapply Permutation_in; [exact Hp|now left]).
        assert (Hb : In b (a :: t1))
          by (eapply Permutation_in; [symmetry; exact Hp|now left]).
        destruct Ha as [Ha|Ha]; [now subst|].
        destruct Hb as [Hb|Hb]; [now subst|].
        rewrite Forall_forall in Hall1, Hall2.
        apply le_string_antisym; auto. }
      subst b. f_equal. apply IH; [exact Hs2|].
      eapply Permutation_cons_inv. exact Hp.
Qed.

Lemma Array_sort_perm_eq (l1 l2 : list string) :
  Permutation l1 l2 -> Array_sort l1 = Array_sort l2.
Proof.
  intros Hp. apply sorted_perm_unique; try apply Array_sort_sorted.
  rewrite !Array_sort_perm. exact Hp.
Qed.

(** ** Objects as association lists *)

Lemma obj_get_In (m : JsObj) (k : string) (v : JsValue) :
  NoDup (Object_keys m) -> In (k, v) m -> obj_get m k = v.
Proof.
  induction m as [|[k' v'] m IH]; simpl; intros Hnd Hin; [contradiction|].
  inversion Hnd as [|? ? Hnotin Hnd']; subst.
  destruct Hin as [Heq|Hin].
  - inversion Heq; subst. now rewrite String.eqb_refl.
  - destruct (k' =? k) eqn:E.
    + apply String.eqb_eq in E. subst k'. exfalso. apply Hnotin.
      change k with (fst (k, v)). now apply in_map.
    + now apply IH.
Qed.

Lemma obj_get_perm (m1 m2 : JsObj) (k : string) :
  NoDup (Object_keys m1) -> Permutation m1 m2 ->
  In k (Object_keys m1) -> obj_get m1 k = obj_get m2 k.
Proof.
  intros Hnd Hp Hk. unfold Object_keys in Hk.
  apply in_map_iff in Hk. destruct Hk as [[k' v] [Hfst Hin]].
  simpl in Hfst. subst k'.
  rewrite (obj_get_In m1 k v Hnd Hin).
  symmetry. apply obj_get_In.
  - eapply Permutation_NoDup; [|exact Hnd].
    unfold Object_keys. now apply Permutation_map.
  - eapply Permutation_in; eassumption.
Qed.

Lemma entries_of_keys (m : JsObj) :
  NoDup (Object_keys m) ->
  map (fun k => (k, obj_get m k)) (Object_keys m) = m.
Proof.
  intros Hnd. unfold Object_keys. rewrite map_map.
  rewrite <- (map_id m) at 2. apply map_ext_in.
  intros [k v] Hin. simpl. f_equal. now apply obj_get_In.
Qed.

Lemma sorted_keys_sorted_entries (f : string -> JsValue) (l : list string) :
  Sorted le_string l -> Sorted le_entry (map (fun k => (k, f k)) l).
Proof.
  induction 1 as [|a l Hs IH Hhd]; simpl; constructor; [exact IH|].
  destruct Hhd; simpl; constructor. exact H.
Qed.

(** ** Cache keys *)

(** C7. [buildCacheKey] does not depend on the insertion order of the
    parameters: two parameter objects with the same entries give the same
    key for a string path; and for a non-empty parameter object the key is
    the path, a question mark, and the entries sorted by parameter name,
    each written [name=JSON(value)], joined with [&]. *)
Theorem buildCacheKey_order_independent `{Builtins}
    (p : string) (m1 m2 : JsObj) :
  NoDup (Object_keys m1) ->
  Permutation m1 m2 ->
  buildCacheKey (JsString p) (Some m1) = buildCacheKey (JsString p) (Some m2)
  /\ (m1 <> [] ->
      exists entries,
        Permutation entries m1 /\
        Sorted le_entry entries /\
        buildCacheKey (JsString p) (Some m1) =
          JsString (p ^^ "?" ^^
                    String.concat "&" (map serializeEntry entries))).
Proof.
  intros Hnd Hp. split.
  - simpl.
    assert (Hlen : List.length (Object_keys m1) = List.length (Object_keys m2))
      by (unfold Object_keys; rewrite !length_map;
          now apply Permutation_length).
    rewrite <- Hlen.
    destruct (0 <? List.length (Object_keys m1))%nat; [|reflexivity].
    assert (Hkeys : Permutation (Object_keys m1) (Object_keys m2))
      by (unfold Object_keys; now apply Permutation_map).
    rewrite <- (Array_sort_perm_eq _ _ Hkeys).
    do 4 f_equal. apply map_ext_in. intros k Hk.
    unfold serializeParam. do 4 f_equal.
    apply obj_get_perm; try assumption.
    eapply Permutation_in; [apply Array_sort_perm|exact Hk].
  - intros Hne.
    exists (map (fun k => (k, obj_get m1 k)) (Array_sort (Object_keys m1))).
    split; [|split].
    + rewrite <- (entries_of_keys m1 Hnd) at 2.
      apply Permutation_map, Array_sort_perm.
    + apply sorted_keys_sorted_entries, StronglySorted_Sorted,
        Array_sort_sorted.
    + simpl. destruct m1 as [|kv m1]; [congruence|]. simpl.
      rewrite map_map. reflexivity.
Qed.

Lemma buildCacheKey_order_independent_witness :
  @buildCacheKey plainBuiltins (JsString "/users")
    (Some [("page", JsNumber 1); ("limit", JsNumber 10)]) =
  @buildCacheKey plainBuiltins (JsString "/users")
    (Some [("limit", JsNumber 10); ("page", JsNumber 1)]).
Proof.
  refine (proj1 (@buildCacheKey_order_independent plainBuiltins "/users"
                   [("page", JsNumber 1); ("limit", JsNumber 10)]
                   [("limit", JsNumber 10); ("page", JsNumber 1)] _ _)).
  - repeat constructor; simpl; intuition discriminate.
  - apply perm_swap.
Defined.

Example buildCacheKey_users :
  @buildCacheKey plainBuiltins (JsString "/users")
    (Some [("page", JsNumber 1); ("limit", JsNumber 10)]) =
  JsString "/users?limit=10&page=1".
Proof. reflexivity. Qed.

Example buildCacheKey_null :
  @buildCacheKey plainBuiltins JsNull None = JsNull /\
  @buildCacheKey plainBuiltins JsUndefined None = JsNull.
Proof. split; reflexivity. Qed.



(** A record whose [url] property is a string gives that string. *)
Lemma extractUrlFromKey_record_url `{Builtins} (o : JsObj) (s : string) :
  obj_has o "url" = true -> obj_get o "url" = JsString s ->
  extractUrlFromKey (JsObject o) = JsString s.
Proof.
  intros Hhas Hget. unfold extractUrlFromKey. simpl.
  now rewrite Hhas, Hget.
Qed.

Example extractUrlFromKey_samples :
  @extractUrlFromKey plainBuiltins (JsString "/users") = JsString "/users" /\
  @extractUrlFromKey plainBuiltins
    (JsArray [JsString "/api/user"; JsNumber 7]) = JsString "/api/user" /\
  @extractUrlFromKey plainBuiltins (JsArray [JsNumber 7]) = JsString "7" /\
  @extractUrlFromKey plainBuiltins
    (JsObject [("url", JsString "/a"); ("id", JsNumber 1)]) = JsString "/a" /\
  @extractUrlFromKey plainBuiltins (JsObject [("id", JsNumber 1)]) = JsNull /\
  @extractUrlFromKey plainBuiltins (JsArray []) = JsNull.
Proof. repeat split. Qed.

(** ** Reading the response off an error *)

(** C10, as stated: the [response] property is returned whenever it is set
    and not [null].  A property that is set to a falsy value such as [0]
    is not returned. *)
Lemma extractResponseFromError_falsy_response :
  ~ (forall error : JsValue,
       js_opt_get error "response" <> JsUndefined ->
       js_opt_get error "response" <> JsNull ->
       extractResponseFromError error = js_opt_get error "response").
Proof.
  intros Hall.
  specialize (Hall (JsObject [("response", JsNumber 0)])).
  simpl in Hall.
  assert (Hne : JsNull = JsNumber 0) by (apply Hall; discriminate).
  discriminate Hne.
Qed.

(** C10, amended.  [extractResponseFromError] is a total function: it
    returns the [response] property of its argument when that property is
    truthy (every object is, hence every response), and [null] otherwise,
    that is for [null], for [undefined], for a value without the property,
    and for a property that is [undefined], [null], [false], [0] or the
    empty string. *)
Theorem extractResponseFromError_cases :
  extractResponseFromError JsNull = JsNull /\
  extractResponseFromError JsUndefined = JsNull /\
  (forall o,
     if obj_has o "response" then True
     else extractResponseFromError (JsObject o) = JsNull) /\
  (forall error,
     match js_opt_get error "response" with
     | JsObject r => extractResponseFromError error = JsObject r
     | JsArray l => extractResponseFromError error = JsArray l
     | JsString s =>
         extractResponseFromError error =
           if s =? EmptyString then JsNull else JsString s
     | JsNumber n =>
         extractResponseFromError error =
           if (n =? 0)%Z then JsNull else JsNumber n
     | JsBool b =>
         extractResponseFromError error = if b then JsBool true else JsNull
     | JsUndefined | JsNull => extractResponseFromError error = JsNull
     end).
Proof.
  split; [reflexivity|split; [reflexivity|split]].
  - intros o. destruct (obj_has o "response") eqn:Hhas; [exact I|].
    unfold extractResponseFromError. simpl.
    assert (Hget : obj_get o "response" = JsUndefined).
    { unfold obj_has in Hhas. induction o as [|[k v] o IH]; [reflexivity|].
      simpl in *. apply orb_false_iff in Hhas. destruct Hhas as [Hk Ho].
      rewrite Hk. now apply IH. }
    now rewrite Hget.
  - intros error. unfold extractResponseFromError, js_or.
    destruct (js_opt_get error "response") as [| |b|n|s|l|r]; simpl;
      try reflexivity.
    + now destruct b.
    + now destruct (n =? 0)%Z.
    + now destruct (s =? EmptyString).
Qed.

(** On the objects that typed errors stand for, the function reads the
    attached response. *)
Lemma extractResponseFromError_typed (e : Error) :
  extractResponseFromError (js_of_Error e) =
    match extractResponseFromTypedError e with
    | Some r => js_of_Response r
    | None => JsNull
    end.
Proof.
  destruct e as [n m p st [r|]]; [|reflexivity].
  destruct r. reflexivity.
Qed.

(** ** The log only grows *)

Lemma extends_ret {A : Type} (a : A) : extends (ret a).
Proof. intros w. exists []. simpl. now rewrite app_nil_r. Qed.

Lemma extends_throw {A : Type} (e : Error) : extends (@throw A e).
Proof. intros w. exists []. simpl. now rewrite app_nil_r. Qed.

Lemma extends_lift {A : Type} (r : Error + A) : extends (lift r).
Proof. intros w. exists []. simpl. now rewrite app_nil_r. Qed.

Lemma extends_Date_now : extends Date_now.
Proof.
  intros w. exists []. unfold Date_now.
  destruct (clock w); simpl; now rewrite app_nil_r.
Qed.

Lemma extends_tell (ev : Event) : isFetch ev = false -> extends (tell ev).
Proof. intros Hev w. exists [ev]. simpl. now rewrite Hev. Qed.

Lemma extends_bind {A B : Type} (m : M A) (k : A -> M B) :
  extends m -> (forall a, extends (k a)) -> extends (bind m k).
Proof.
  intros Hm Hk w. unfold bind.
  destruct (Hm w) as [t1 [Ht1 Hf1]].
  destruct (m w) as [w1 [e|a]]; simpl in *.
  - now exists t1.
  - destruct (Hk a w1) as [t2 [Ht2 Hf2]].
    exists (t1 ++ t2). rewrite Ht2, Ht1, app_assoc. split; [reflexivity|].
    rewrite forallb_app. now rewrite Hf1, Hf2.
Qed.

Lemma extends_try_catch {A : Type} (m : M A) (h : Error -> M A) :
  extends m -> (forall e, extends (h e)) -> extends (try_catch m h).
Proof.
  intros Hm Hh w. unfold try_catch.
  destruct (Hm w) as [t1 [Ht1 Hf1]].
  destruct (m w) as [w1 [e|a]]; simpl in *.
  - destruct (Hh e w1) as [t2 [Ht2 Hf2]].
    exists (t1 ++ t2). rewrite Ht2, Ht1, app_assoc. split; [reflexivity|].
    rewrite forallb_app. now rewrite Hf1, Hf2.
  - now exists t1.
Qed.

Lemma extends_applyResponseTransforms_from (ts : list ResponseTransform) :
  forall i r, extends (applyResponseTransforms_from i r ts).
Proof.
  induction ts as [|f ts IH]; intros i r; simpl.
  - apply extends_ret.
  - apply extends_bind; [now apply extends_tell|]. intros _.
    apply extends_bind; [apply extends_lift|]. intros r'. apply IH.
Qed.

Lemma extends_notifyMonitors_from (ms : list Monitor) :
  forall i r, extends (notifyMonitors_from i r ms).
Proof.
  induction ms as [|f ms IH]; intros i r; simpl.
  - apply extends_ret.
  - apply extends_bind; [now apply extends_tell|]. intros _.
    apply extends_bind.
    + destruct (f r); [now apply extends_tell|apply extends_ret].
    + intros _. apply IH.
Qed.

Lemma extends_response_phase (ts : option (list ResponseTransform))
    (r : SWRKitResponse) :
  extends (match nonEmpty ts with
           | Some ts => applyResponseTransforms r ts
           | None => ret r
           end).
Proof.
  destruct (nonEmpty ts);
    [apply extends_applyResponseTransforms_from|apply extends_ret].
Qed.

Lemma extends_monitor_phase (ms : option (list Monitor))
    (r : SWRKitResponse) :
  extends (match nonEmpty ms with
           | Some ms => notifyMonitors r ms
           | None => ret tt
           end).
Proof.
  destruct (nonEmpty ms);
    [apply extends_notifyMonitors_from|apply extends_ret].
Qed.

Lemma Date_now_returns (w : World) :
  exists w' t, Date_now w = (w', inr t) /\ trace w' = trace w.
Proof.
  unfold Date_now. destruct (clock w) as [|t ts].
  - now exists w, 0%Z.
  - now eexists _, t.
Qed.

(** ** The timeout of a call *)

Lemma requestTimeout_nonZero (config : SWRKitRequestConfig)
    (defaultTimeout : option Z) :
  requestTimeout config defaultTimeout =
    Some (nonZeroTimeout config defaultTimeout).
Proof.
  unfold requestTimeout, nonZeroTimeout, num_or, DEFAULT_TIMEOUT.
  destruct (read (timeout config)) as [t|]; [destruct (t =? 0)%Z eqn:Ht|];
    try (destruct defaultTimeout as [d|]; [destruct (d =? 0)%Z eqn:Hd|]);
    simpl; rewrite ?Ht, ?Hd; reflexivity.
Qed.

Lemma requestTimeout_zero :
  requestTimeout zeroTimeout (Some 5000%Z) = Some 5000%Z /\
  nullishTimeout zeroTimeout (Some 5000%Z) = 0%Z.
Proof. split; reflexivity. Qed.

(** C5, as stated: the transport is handed [config.timeout] whenever that
    is defined, zero included.  With [||] a zero falls through: a call
    with [timeout: 0] on a fetcher whose default is 5000 goes out with
    5000. *)
Lemma fetcher_timeout_zero_falls_through :
  ~ (forall config defaultTimeout,
       fetchTimeouts
         (trace (fst (@createFetcher plainBuiltins refetch200 None None
                        defaultTimeout None None None config
                        (initialWorld [1000; 1040]%Z)))) =
         [Some (nullishTimeout config defaultTimeout)]).
Proof.
  intros Hall. specialize (Hall zeroTimeout (Some 5000%Z)).
  vm_compute in Hall. discriminate Hall.
Qed.

(** Once the request transforms are done the fetcher makes exactly one
    transport call, with the timeout of the config in hand. *)
Lemma fetcher_send_timeout `{Builtins} `{Refetch}
    (baseURL : option string) (defaultHeaders : option HeadersInit)
    (defaultTimeout : option Z)
    (responseTransforms : option (list ResponseTransform))
    (monitors : option (list Monitor))
    (startTime : Z) (config : SWRKitRequestConfig) (w : World) :
  exists fullUrl fetchConfig rest,
    trace (fst (fetcher_send baseURL defaultHeaders defaultTimeout
                  responseTransforms monitors startTime config w)) =
      trace w ++ EvFetch fullUrl fetchConfig :: rest /\
    forallb (fun ev => negb (isFetch ev)) rest = true /\
    fc_timeout fetchConfig = Some (nonZeroTimeout config defaultTimeout).
Proof.
  unfold fetcher_send.
  match goal with
  | |- context [bind (tell (EvFetch ?u ?fc)) ?k] =>
      exists u, fc; assert (Hk : extends (k tt))
  end.
  { apply extends_bind; [apply extends_lift|]. intros response.
    apply extends_bind; [apply extends_Date_now|]. intros now.
    apply extends_bind; [now apply extends_tell|]. intros _.
    apply extends_bind; [apply extends_lift|]. intros data.
    apply extends_bind; [apply extends_response_phase|]. intros r.
    apply extends_bind; [apply extends_monitor_phase|]. intros _.
    destruct (negb (ok r)); [apply extends_throw|apply extends_ret]. }
  unfold bind at 1. simpl.
  match goal with
  | |- context [fst (?k ?w1)] => destruct (Hk w1) as [t [Ht Hf]]
  end.
  exists t. rewrite Ht. simpl. rewrite <- app_assoc. simpl.
  split; [reflexivity|split; [exact Hf|]].
  unfold makeFetchConfig.
  destruct (read (options config)); simpl; apply requestTimeout_nonZero.
Qed.

Lemma fetchTimeouts_app (a b : list Event) :
  fetchTimeouts (a ++ b) = fetchTimeouts a ++ fetchTimeouts b.
Proof. apply flat_map_app. Qed.

Lemma fetchTimeouts_quiet (t : list Event) :
  forallb (fun ev => negb (isFetch ev)) t = true -> fetchTimeouts t = [].
Proof.
  induction t as [|ev t IH]; simpl; [reflexivity|].
  intros Hq. apply andb_true_iff in Hq. destruct Hq as [Hev Ht].
  rewrite (IH Ht). now destruct ev.
Qed.

Lemma extends_applyRequestTransforms_from (ts : list RequestTransform) :
  forall i c, extends (applyRequestTransforms_from i c ts).
Proof.
  induction ts as [|f ts IH]; intros i c; simpl.
  - apply extends_ret.
  - apply extends_bind; [now apply extends_tell|]. intros _.
    apply extends_bind; [apply extends_lift|]. intros c'. apply IH.
Qed.

Lemma applyRequestTransforms_from_result (ts : list RequestTransform) :
  forall i c w,
    snd (applyRequestTransforms_from i c ts w) = runRequestTransforms c ts.
Proof.
  induction ts as [|f ts IH]; intros i c w; simpl; [reflexivity|].
  unfold bind at 1. simpl. unfold bind at 1. unfold lift at 1.
  destruct (f c) as [e|c']; [reflexivity|apply IH].
Qed.

Lemma request_phase_result (requestTransforms : option (list RequestTransform))
    (config : SWRKitRequestConfig) (w : World) :
  snd (match nonEmpty requestTransforms with
       | Some ts => applyRequestTransforms config ts
       | None => ret config
       end w) = transformedConfig requestTransforms config.
Proof.
  destruct requestTransforms as [[|f ts]|]; try reflexivity.
  apply applyRequestTransforms_from_result.
Qed.

Lemma extends_request_phase (requestTransforms : option (list RequestTransform))
    (config : SWRKitRequestConfig) :
  extends (match nonEmpty requestTransforms with
           | Some ts => applyRequestTransforms config ts
           | None => ret config
           end).
Proof.
  destruct (nonEmpty requestTransforms);
    [apply extends_applyRequestTransforms_from|apply extends_ret].
Qed.

Lemma extends_fetcher_catch `{Builtins} `{Refetch}
    (responseTransforms : option (list ResponseTransform))
    (monitors : option (list Monitor)) (startTime : Z) (e : Error) :
  extends (fetcher_catch responseTransforms monitors startTime e).
Proof.
  unfold fetcher_catch.
  apply extends_bind; [apply extends_Date_now|]. intros now.
  apply extends_bind; [apply extends_response_phase|]. intros r.
  apply extends_bind; [apply extends_monitor_phase|]. intros _.
  apply extends_throw.
Qed.

(** C5, amended.  Every call of a fetcher hands the transport one timeout,
    unless a request transform throws, in which case the transport is not
    called.  The timeout is [config.timeout], as the request transforms
    left it, when that is defined and not zero, otherwise the default
    timeout of the factory when that is defined and not zero, otherwise
    10000 ms. *)
Theorem fetcher_timeout `{Builtins} `{Refetch}
    (baseURL : option string) (defaultHeaders : option HeadersInit)
    (defaultTimeout : option Z)
    (requestTransforms : option (list RequestTransform))
    (responseTransforms : option (list ResponseTransform))
    (monitors : option (list Monitor))
    (config : SWRKitRequestConfig) (w : World) :
  fetchTimeouts
    (trace (fst (createFetcher baseURL defaultHeaders defaultTimeout
                   requestTransforms responseTransforms monitors config w))) =
  fetchTimeouts (trace w) ++
  match transformedConfig requestTransforms config with
  | inr config' => [Some (nonZeroTimeout config' defaultTimeout)]
  | inl _ => []
  end.
Proof.
  unfold createFetcher, fetcher. unfold bind at 1.
  destruct (Date_now_returns w) as [w0 [startTime [Hnow Htrace]]].
  rewrite Hnow, <- Htrace. clear Hnow Htrace w.
  unfold try_catch, fetcher_try. unfold bind at 1.
  pose proof (request_phase_result requestTransforms config w0) as Hres.
  destruct (extends_request_phase requestTransforms config w0)
    as [t1 [Ht1 Hq1]].
  destruct (match nonEmpty requestTransforms with
            | Some ts => applyRequestTransforms config ts
            | None => ret config
            end w0) as [w1 res].
  simpl in Hres, Ht1. rewrite <- Hres. destruct res as [e|config'].
  - destruct (extends_fetcher_catch responseTransforms monitors startTime e w1)
      as [t2 [Ht2 Hq2]].
    rewrite Ht2, Ht1, !fetchTimeouts_app.
    rewrite (fetchTimeouts_quiet t1), (fetchTimeouts_quiet t2) by assumption.
    now rewrite !app_nil_r.
  - destruct (fetcher_send_timeout baseURL defaultHeaders defaultTimeout
                responseTransforms monitors startTime config' w1)
      as [fullUrl [fetchConfig [rest [Hsend [Hq Htimeout]]]]].
    destruct (fetcher_send baseURL defaultHeaders defaultTimeout
                responseTransforms monitors startTime config' w1)
      as [w2 [e|r]]; simpl in Hsend.
    + destruct (extends_fetcher_catch responseTransforms monitors startTime
                  e w2) as [t2 [Ht2 Hq2]].
      rewrite Ht2, Hsend, Ht1, !fetchTimeouts_app.
      change (EvFetch fullUrl fetchConfig :: rest)
        with ([EvFetch fullUrl fetchConfig] ++ rest).
      rewrite fetchTimeouts_app.
      rewrite (fetchTimeouts_quiet t1), (fetchTimeouts_quiet t2),
        (fetchTimeouts_quiet rest) by assumption.
      simpl. now rewrite !app_nil_r, Htimeout.
    + simpl. rewrite Hsend, Ht1, !fetchTimeouts_app.
      change (EvFetch fullUrl fetchConfig :: rest)
        with ([EvFetch fullUrl fetchConfig] ++ rest).
      rewrite fetchTimeouts_app.
      rewrite (fetchTimeouts_quiet t1), (fetchTimeouts_quiet rest)
        by assumption.
      simpl. now rewrite !app_nil_r, Htimeout.
Qed.


(** ** Merging request configs *)

Lemma obj_get_alist_set (o : JsObj) (k k' : string) (v : JsValue) :
  obj_get (alist_set o k v) k' = if k =? k' then v else obj_get o k'.
Proof.
  induction o as [|[k0 v0] o IH]; simpl.
  - reflexivity.
  - destruct (k0 =? k) eqn:E0; simpl.
    + apply String.eqb_eq in E0. subst k0.
      now destruct (k =? k').
    + rewrite IH. destruct (k0 =? k') eqn:E1; [|reflexivity].
      apply String.eqb_eq in E1. subst k0.
      rewrite String.eqb_sym in E0. now rewrite E0.
Qed.

Lemma obj_get_missing (o : JsObj) (k : string) :
  obj_has o k = false -> obj_get o k = JsUndefined.
Proof.
  unfold obj_has. induction o as [|[k0 v0] o IH]; simpl; [reflexivity|].
  intros Hhas. apply orb_false_iff in Hhas. destruct Hhas as [Hk Ho].
  rewrite Hk. now apply IH.
Qed.

Lemma obj_has_In (o : JsObj) (k : string) :
  obj_has o k = true -> In k (Object_keys o).
Proof.
  unfold obj_has, Object_keys. intros Hhas.
  apply existsb_exists in Hhas. destruct Hhas as [kv [Hin Heq]].
  apply String.eqb_eq in Heq. subst k. now apply in_map.
Qed.

Lemma obj_get_assign_all (b : JsObj) :
  NoDup (Object_keys b) ->
  forall acc k,
    obj_get
      (fold_left (fun acc kv => alist_set acc (fst kv) (snd kv)) b acc) k =
      if obj_has b k then obj_get b k else obj_get acc k.
Proof.
  induction b as [|[k1 v1] b IH]; intros Hnd acc k; [reflexivity|].
  inversion Hnd as [|? ? Hnotin Hnd']; subst. simpl.
  rewrite (IH Hnd'), obj_get_alist_set.
  unfold obj_has at 2. simpl. fold (obj_has b k).
  destruct (k1 =? k) eqn:E; simpl; [|reflexivity].
  apply String.eqb_eq in E. subst k1.
  destruct (obj_has b k) eqn:Hb; [|reflexivity].
  exfalso. apply Hnotin. now apply obj_has_In.
Qed.

(** [{ ...a, ...b }] reads like [b] where [b] has the key and like [a]
    elsewhere. *)
Lemma obj_get_spread (a b : JsObj) (k : string) :
  NoDup (Object_keys a) -> NoDup (Object_keys b) ->
  obj_get (obj_spread (Some a) (Some b)) k =
    if obj_has b k then obj_get b k else obj_get a k.
Proof.
  intros Ha Hb. unfold obj_spread.
  rewrite (obj_get_assign_all b Hb), (obj_get_assign_all a Ha). simpl.
  destruct (obj_has b k); [reflexivity|].
  destruct (obj_has a k) eqn:E; [reflexivity|].
  now rewrite obj_get_missing.
Qed.

(** After one turn of the loop the parameters are those of the config of
    that turn alone: [Object.assign] has already replaced what was merged
    so far when the spread reads [merged.params]. *)
Lemma mergeStep_params `{Refetch}
    (merged config : SWRKitRequestConfig) (p : JsObj) :
  params config = Value p ->
  params (mergeStep merged (Some config)) =
    Value (obj_spread (Some p) (Some p)).
Proof.
  intros Hp. unfold mergeStep. rewrite Hp. simpl.
  destruct (read (headers config)); simpl; now rewrite Hp.
Qed.

(** The same for the headers: only the headers of the last config reach
    [mergeHeaders]. *)
Lemma mergeStep_headers `{Refetch}
    (merged config : SWRKitRequestConfig) (h : HeadersInit) :
  headers config = Value h ->
  headers (mergeStep merged (Some config)) =
    Value (mergeHeaders (Some h) (Some h)).
Proof.
  intros Hh. unfold mergeStep. rewrite Hh. simpl.
  destruct (read (params config)); simpl; now rewrite Hh.
Qed.

Lemma mergeConfigs_snoc `{Refetch}
    (configs : list (option SWRKitRequestConfig))
    (config : option SWRKitRequestConfig) :
  mergeConfigs (configs ++ [config]) =
    mergeStep (mergeConfigs configs) config.
Proof. unfold mergeConfigs. now rewrite fold_left_app. Qed.

(** The merged parameters are those of the last config: a parameter of an
    earlier config survives only if the last config repeats it. *)
Lemma mergeConfigs_params_of_last `{Refetch}
    (configs : list (option SWRKitRequestConfig))
    (config : SWRKitRequestConfig) (p : JsObj) (k : string) :
  params config = Value p -> NoDup (Object_keys p) ->
  exists q,
    params (mergeConfigs (configs ++ [Some config])) = Value q /\
    obj_get q k = obj_get p k.
Proof.
  intros Hp Hnd. exists (obj_spread (Some p) (Some p)).
  rewrite mergeConfigs_snoc. split; [now apply mergeStep_params|].
  rewrite obj_get_spread by assumption.
  destruct (obj_has p k) eqn:E; [reflexivity|].
  reflexivity.
Qed.

(** Scalar properties come from the latest config that has them. *)
Lemma mergeConfigs_scalars `{Refetch}
    (configs : list (option SWRKitRequestConfig))
    (config : SWRKitRequestConfig) :
  let merged := mergeConfigs (configs ++ [Some config]) in
  let before := mergeConfigs configs in
  url merged = assign (url before) (url config) /\
  method merged = assign (method before) (method config) /\
  data merged = assign (data before) (data config) /\
  timeout merged = assign (timeout before) (timeout config) /\
  options merged = assign (options before) (options config).
Proof.
  simpl. rewrite mergeConfigs_snoc. unfold mergeStep.
  destruct (read (headers config)), (read (params config)); simpl;
    repeat split.
Qed.

(** C3.  Merging a config that sets the parameter [page] and the header
    [X-Trace] with a later config that sets the parameter [limit] and the
    header [Accept] keeps the scalars of both, but neither [page] nor the
    earlier headers: the merged parameters are those of the later config,
    and [mergeHeaders] is given the later headers twice. *)
Theorem mergeConfigs_drops_earlier_keys `{Refetch} :
  let merged := mergeConfigs [Some pageConfig; Some limitConfig] in
  url merged = Value "/users" /\
  timeout merged = Value 3000%Z /\
  params merged = Value [("limit", JsNumber 10)] /\
  obj_get [("limit", JsNumber 10)] "page" = JsUndefined /\
  headers merged =
    Value (mergeHeaders (Some (HRecord [("Accept", "text/csv")]))
             (Some (HRecord [("Accept", "text/csv")]))).
Proof. repeat split. Qed.

(** ** The authentication transform *)

Lemma set_headers_same (config : SWRKitRequestConfig) :
  set_headers config (headers config) = config.
Proof. now destruct config. Qed.

(** Entry arrays: a header that is there, under any casing of its name, is
    left alone. *)
Lemma authTransform_array_keeps (userAuth : option AuthConfig)
    (getAccessToken : option (option string -> option string))
    (config : SWRKitRequestConfig) (entries : list (string * string)) :
  headers config = Value (HArray entries) ->
  array_has_header entries (effectiveAuthHeader userAuth) = true ->
  authTransform userAuth getAccessToken config = config.
Proof.
  intros Hh Hhas. unfold authTransform.
  fold (effectiveAuthHeader userAuth).
  destruct (read (autoAuth (spreadAuth DEFAULT_AUTH_CONFIG userAuth)))
    as [[|]|]; destruct getAccessToken as [get|]; try reflexivity;
    (destruct (get _) as [token|]; [|reflexivity];
     destruct (token =? EmptyString); [reflexivity|];
     rewrite Hh; simpl; rewrite Hhas, <- Hh; apply set_headers_same).
Qed.

(** Plain records: a header that is there under the exact name, with a
    non-empty value, is left alone. *)
Lemma authTransform_record_keeps (userAuth : option AuthConfig)
    (getAccessToken : option (option string -> option string))
    (config : SWRKitRequestConfig) (fields : list (string * string))
    (v : string) :
  headers config = Value (HRecord fields) ->
  alist_get fields (effectiveAuthHeader userAuth) = Some v ->
  v <> EmptyString ->
  authTransform userAuth getAccessToken config = config.
Proof.
  intros Hh Hget Hv. unfold authTransform.
  fold (effectiveAuthHeader userAuth).
  assert (Hne : (str_or (Some v) EmptyString =? EmptyString) = false).
  { simpl. destruct (v =? EmptyString) eqn:E.
    - now apply String.eqb_eq in E.
    - exact E. }
  destruct (read (autoAuth (spreadAuth DEFAULT_AUTH_CONFIG userAuth)))
    as [[|]|]; destruct getAccessToken as [get|]; try reflexivity;
    (destruct (get _) as [token|]; [|reflexivity];
     destruct (token =? EmptyString); [reflexivity|];
     rewrite Hh; simpl; rewrite Hget, Hne, <- Hh; apply set_headers_same).
Qed.

Lemma Headers_get_set (h : list (string * string)) (name value : string) :
  Headers_get (Headers_set h name value) name = Some value.
Proof.
  unfold Headers_get, Headers_set.
  induction h as [|[k v] h IH]; simpl.
  - now rewrite String.eqb_refl.
  - destruct (k =? toLowerCase name) eqn:E; simpl.
    + now rewrite String.eqb_refl.
    + now rewrite E.
Qed.

(** [Headers] instances: the header is set whether it was there or not. *)
Lemma authTransform_instance_sets (userAuth : option AuthConfig)
    (get : option string -> option string)
    (config : SWRKitRequestConfig) (entries : list (string * string))
    (token : string) :
  headers config = Value (HInstance entries) ->
  read (autoAuth (spreadAuth DEFAULT_AUTH_CONFIG userAuth)) <> Some false ->
  get (read (accessTokenCookie (spreadAuth DEFAULT_AUTH_CONFIG userAuth))) =
    Some token ->
  token <> EmptyString ->
  header_of (authTransform userAuth (Some get) config)
    (effectiveAuthHeader userAuth) =
    Some (effectiveAuthValue userAuth token).
Proof.
  intros Hh Hauto Hget Htoken. unfold authTransform.
  fold (effectiveAuthHeader userAuth).
  assert (Hne : (token =? EmptyString) = false).
  { destruct (token =? EmptyString) eqn:E; [|reflexivity].
    now apply String.eqb_eq in E. }
  destruct (read (autoAuth (spreadAuth DEFAULT_AUTH_CONFIG userAuth)))
    as [[|]|]; try congruence;
    rewrite Hget, Hne, Hh; simpl; unfold header_of; simpl;
    apply Headers_get_set.
Qed.

(** C6.  A request whose [Headers] instance already carries an
    [Authorization] value comes out of the authentication transform with
    that value replaced by [Bearer tok]; the same request with an entry
    array or a plain record keeps its value. *)
Theorem authTransform_overwrites_Headers_instance :
  header_of (withHeaders (HInstance [("authorization", "Basic abc")]))
    "Authorization" = Some "Basic abc" /\
  header_of
    (authTransform None cookieToken
       (withHeaders (HInstance [("authorization", "Basic abc")])))
    "Authorization" = Some "Bearer tok" /\
  header_of
    (authTransform None cookieToken
       (withHeaders (HArray [("authorization", "Basic abc")])))
    "Authorization" = Some "Basic abc" /\
  header_of
    (authTransform None cookieToken
       (withHeaders (HRecord [("Authorization", "Basic abc")])))
    "Authorization" = Some "Basic abc" /\
  header_of
    (authTransform None cookieToken (withHeaders (HRecord [])))
    "Authorization" = Some "Bearer tok".
Proof. repeat split. Qed.

(** A plain record is read under the exact name only: a value stored
    under another casing stays, and the transform adds its own entry next
    to it; a value that is the empty string is replaced. *)
Example authTransform_record_exact_name :
  authTransform None cookieToken
    (withHeaders (HRecord [("authorization", "Basic abc")])) =
    withHeaders
      (HRecord [("authorization", "Basic abc");
                ("Authorization", "Bearer tok")]) /\
  authTransform None cookieToken
    (withHeaders (HRecord [("Authorization", EmptyString)])) =
    withHeaders (HRecord [("Authorization", "Bearer tok")]).
Proof. split; reflexivity. Qed.

(** ** Invalidation and the success callback *)

Section SuccessHandlerFacts.

Variable invalidateKeys : list string.
Variable fulfils : string -> bool.



End SuccessHandlerFacts.





(** When a revalidation is rejected, or one never settles, the user's
    callback is not called at all. *)
Example onSuccessHandler_rejected :
  onSuccessHandler ["/a"; "/b"] true (fun k => k =? "/a")
    JsNull JsNull [0; 1]%nat =
    [EvMutateCalled "/a"; EvMutateCalled "/b";
     EvMutateSettled "/a" true; EvMutateSettled "/b" false] /\
  onSuccessHandler ["/a"; "/b"] true (fun _ => true) JsNull JsNull [0]%nat =
    [EvMutateCalled "/a"; EvMutateCalled "/b"; EvMutateSettled "/a" true].
Proof. split; reflexivity. Qed.

(** ** The fetcher *)

(** Monitors cannot fail a call. *)
Lemma notifyMonitors_from_returns (ms : list Monitor) :
  forall i r w, exists w', notifyMonitors_from i r ms w = (w', inr tt).
Proof.
  induction ms as [|f ms IH]; intros i r w; simpl.
  - now exists w.
  - unfold bind at 1. simpl. unfold bind at 1.
    destruct (f r) as [e|]; simpl; apply IH.
Qed.

Lemma monitor_phase_returns (ms : option (list Monitor))
    (r : SWRKitResponse) (w : World) :
  exists w',
    match nonEmpty ms with
    | Some ms => notifyMonitors r ms
    | None => ret tt
    end w = (w', inr tt).
Proof.
  destruct (nonEmpty ms) as [l|]; [apply notifyMonitors_from_returns|].
  now exists w.
Qed.

Lemma normalizeResponse_fields `{Builtins} `{Refetch}
    (data : JsValue) (response : WebResponse) (d : Z) :
  ok (normalizeResponse data response d) = w_ok response /\
  status (normalizeResponse data response d) = Some (w_status response) /\
  r_data (normalizeResponse data response d) = data.
Proof. unfold normalizeResponse. now destruct (w_ok response). Qed.

(** [createErrorFromResponse] attaches the response it is given. *)
Lemma createErrorFromResponse_response `{Builtins} (r : SWRKitResponse) :
  e_response (createErrorFromResponse r) = Some r.
Proof.
  unfold createErrorFromResponse. now destruct (problem r) as [[]|].
Qed.

(** What the caller gets for an HTTP error status when no transform is
    installed, whatever the classifier: the typed error built from the
    normalized response is thrown inside the [try] block, caught by the
    [catch] of the same function and normalized a second time, now as a
    failure without a transport response.  The error that reaches the
    caller has a response with no status and no data; the response with
    the status and the parsed body sits one level down, on the original
    error. *)
Lemma fetcher_http_error_rethrown `{Builtins} `{Refetch}
    (baseURL : option string) (defaultHeaders : option HeadersInit)
    (defaultTimeout : option Z) (monitors : option (list Monitor))
    (config : SWRKitRequestConfig) (w : World)
    (response : WebResponse) (body : JsValue) :
  (forall fullUrl fetchConfig,
     fetchWithTimeout fullUrl fetchConfig = inr response) ->
  parseResponseBody response = inr body ->
  w_ok response = false ->
  exists thrown r first inner,
    snd (fetcher baseURL defaultHeaders defaultTimeout None None monitors
           config w) = inl thrown /\
    e_response thrown = Some r /\
    ok r = false /\ status r = None /\ r_data r = JsUndefined /\
    originalError r = Some first /\
    e_response first = Some inner /\
    status inner = Some (w_status response) /\ r_data inner = body.
Proof.
  intros Hfetch Hparse Hok.
  destruct (Date_now_returns w) as [w0 [startTime [Hnow0 _]]].
  pose proof (monitor_phase_returns monitors) as Hmon.
  unfold fetcher, fetcher_try, fetcher_send, fetcher_catch.
  change (@nonEmpty RequestTransform None) with (@None (list RequestTransform)).
  change (@nonEmpty ResponseTransform None)
    with (@None (list ResponseTransform)).
  cbv beta iota zeta delta [bind try_catch tell lift ret throw].
  rewrite Hnow0. cbv beta iota. rewrite Hfetch. cbv beta iota.
  match goal with
  | |- context [Date_now ?w1] =>
      destruct (Date_now_returns w1) as [w2 [t1 [Hnow1 _]]]; rewrite Hnow1
  end.
  cbv beta iota. rewrite Hparse. cbv beta iota.
  destruct (normalizeResponse_fields body response (t1 - startTime))
    as [Hrok [Hrstatus Hrdata]].
  match goal with
  | |- context [match nonEmpty monitors with
                | Some ms => notifyMonitors ?r ms
                | None => _
                end ?w3] =>
      destruct (Hmon r w3) as [w4 Hm]
  end.
  unfold ret in Hm. rewrite Hm. cbv beta iota.
  rewrite Hrok, Hok. change (negb false) with true. cbv beta iota.
  match goal with
  | |- context [Date_now ?w1] =>
      destruct (Date_now_returns w1) as [w5 [t2 [Hnow2 _]]]; rewrite Hnow2
  end.
  cbv beta iota.
  match goal with
  | |- context [match nonEmpty monitors with
                | Some ms => notifyMonitors ?r ms
                | None => _
                end ?w3] =>
      destruct (Hmon r w3) as [w6 Hm']
  end.
  unfold ret in Hm'. rewrite Hm'. cbv beta iota. simpl snd.
  eexists _, _, _, _.
  split; [reflexivity|].
  split; [apply createErrorFromResponse_response|].
  split; [reflexivity|]. split; [reflexivity|]. split; [reflexivity|].
  split; [reflexivity|].
  split; [apply createErrorFromResponse_response|].
  split; assumption.
Qed.

(** C1.  Against a server that answers 404 with a JSON error body, the
    fetcher throws a typed error whose response has no status and no data
    and is classified from the rethrown error, not from the status.  The
    response the specification describes, with status 404, the problem
    [CLIENT_ERROR] and the parsed body, is the one attached to the original
    error of that response. *)
Theorem fetcher_404_loses_status_and_body :
  exists thrown r first inner,
    snd (@createFetcher plainBuiltins refetch404 None None None None None None
           getUsers (initialWorld [1000; 1040; 1050]%Z)) = inl thrown /\
    e_response thrown = Some r /\
    ok r = false /\
    problem r = Some (classifyByStatus None (Some first)) /\
    status r = None /\
    r_data r = JsUndefined /\
    originalError r = Some first /\
    e_name first = "SWRKitClientError" /\
    e_response first = Some inner /\
    ok inner = false /\
    problem inner = Some CLIENT_ERROR /\
    status inner = Some 404%Z /\
    r_data inner = notFoundBody.
Proof. eexists _, _, _, _. repeat split. Qed.

(** A response transform that throws does so again in the [catch] block,
    and what it throws reaches the caller as it is: no typed error, no
    response, and the monitors are not called. *)
Example fetcher_broken_transform :
  let run :=
    @createFetcher plainBuiltins refetch200 None None None None
      (Some [brokenTransform]) (Some [quietMonitor])
      getUsers (initialWorld [1000; 1040; 1050]%Z) in
  snd run = inl (newError "transform failed") /\
  e_response (newError "transform failed") = None /\
  map isResponseStep (filter isResponseStep (trace (fst run))) = [true; true] /\
  existsb (fun ev => match ev with EvMonitor _ _ => true | _ => false end)
    (trace (fst run)) = false.
Proof. repeat split. Qed.

(** On the success path every response transform and every monitor is
    called once, in this order, on the response that is returned. *)
Example fetcher_success_steps :
  let run :=
    @createFetcher plainBuiltins refetch200 None None None None
      (Some [keepResponse]) (Some [quietMonitor])
      getUsers (initialWorld [1000; 1040; 1050]%Z) in
  exists r,
    snd run = inr r /\
    filter isResponseStep (trace (fst run)) =
      [EvResponseTransform 0 r; EvMonitor 0 r].
Proof. eexists. split; reflexivity. Qed.

(** C2.  Against a server that answers 404, one call of a fetcher with one
    response transform and one monitor calls the transform twice and the
    monitor twice, on two different responses: first on the normalized
    response of the 404, then, in the [catch] block, on the response
    normalized from the typed error that the [try] block has just thrown.
    The error that reaches the caller carries the second. *)
Theorem fetcher_404_runs_steps_twice :
  let run :=
    @createFetcher plainBuiltins refetch404 None None None None
      (Some [keepResponse]) (Some [quietMonitor])
      getUsers (initialWorld [1000; 1040; 1050]%Z) in
  exists r1 r2 thrown,
    filter isResponseStep (trace (fst run)) =
      [EvResponseTransform 0 r1; EvMonitor 0 r1;
       EvResponseTransform 0 r2; EvMonitor 0 r2] /\
    status r1 = Some 404%Z /\
    status r2 = None /\
    snd run = inl thrown /\
    e_response thrown = Some r2.
Proof. eexists _, _, _. repeat split. Qed.

(** ** The mutation trigger *)

(** With an override config the trigger is the fetcher on the merged
    config: what the fetcher returns is returned, what it throws is
    thrown. *)
Lemma wrappedTrigger_override `{Refetch}
    (mutation_url : string) (mutation_method : option string)
    (requestConfig : option SWRKitRequestConfig)
    (contextFetcher : SWRKitRequestConfig -> M SWRKitResponse)
    (trigger : JsValue -> M JsValue)
    (variables : JsValue) (override : SWRKitRequestConfig) (w : World) :
  wrappedTrigger mutation_url mutation_method requestConfig contextFetcher
    trigger variables (Some override) w =
  contextFetcher
    (mergeConfigs
       [Some (triggerConfig mutation_url mutation_method variables);
        requestConfig; Some override]) w.
Proof.
  unfold wrappedTrigger, bind, ret.
  now destruct (contextFetcher _ w) as [w' [e|r]].
Qed.

(** Without an override config a thrown error that carries a response is
    turned into that response. *)
Lemma wrappedTrigger_plain_returns_response `{Refetch}
    (mutation_url : string) (mutation_method : option string)
    (requestConfig : option SWRKitRequestConfig)
    (contextFetcher : SWRKitRequestConfig -> M SWRKitResponse)
    (trigger : JsValue -> M JsValue)
    (variables : JsValue) (w w' : World) (e : Error) (r : SWRKitResponse) :
  trigger variables w = (w', inl e) ->
  e_response e = Some r ->
  wrappedTrigger mutation_url mutation_method requestConfig contextFetcher
    trigger variables None w = (w', inr r).
Proof.
  intros Hrun Hr. unfold wrappedTrigger, try_catch, bind.
  rewrite Hrun. unfold extractResponseFromTypedError. now rewrite Hr.
Qed.

(** C4.  A trigger with an override config, against a server that answers
    404: the typed error of the fetcher comes out of the trigger as an
    exception, with the merged config having gone to the fetcher.  The
    same trigger without an override config returns the response of the
    error. *)
Theorem wrappedTrigger_override_throws :
  let w := initialWorld [1000; 1040; 1050]%Z in
  (exists thrown r,
     snd (wrappedTrigger404 renameUser (Some withTimeout) w) = inl thrown /\
     e_response thrown = Some r /\
     snd (fetcher404
            {| url := Value "/users/1"; method := Value "PUT";
               params := Absent; data := Value renameUser; headers := Absent;
               timeout := Value 3000%Z; options := Absent |} w) =
       inl thrown) /\
  (exists r,
     snd (wrappedTrigger404 renameUser None w) = inr r /\ ok r = false).
Proof.
  split.
  - eexists _, _. repeat split.
  - eexists. split; reflexivity.
Qed.

(** * Further properties *)

(** ** Monitors and transforms *)

Lemma monitorCalls_app (a b : list Event) :
  monitorCalls (a ++ b) = monitorCalls a ++ monitorCalls b.
Proof. apply flat_map_app. Qed.

Lemma consoleErrors_app (a b : list Event) :
  consoleErrors (a ++ b) = consoleErrors a ++ consoleErrors b.
Proof. apply flat_map_app. Qed.

Lemma requestTransformCalls_app (a b : list Event) :
  requestTransformCalls (a ++ b) =
    requestTransformCalls a ++ requestTransformCalls b.
Proof. apply flat_map_app. Qed.

Lemma responseTransformCalls_app (a b : list Event) :
  responseTransformCalls (a ++ b) =
    responseTransformCalls a ++ responseTransformCalls b.
Proof. apply flat_map_app. Qed.

Lemma fetchCalls_app (a b : list Event) :
  fetchCalls (a ++ b) = fetchCalls a ++ fetchCalls b.
Proof. apply flat_map_app. Qed.

Lemma notifyMonitors_from_calls (ms : list Monitor) :
  forall i r w,
    exists w',
      notifyMonitors_from i r ms w = (w', inr tt) /\
      monitorCalls (trace w') =
        monitorCalls (trace w) ++ numberFrom i (map (fun _ => r) ms) /\
      consoleErrors (trace w') =
        consoleErrors (trace w) ++
        flat_map (fun m => match m r with Some e => [e] | None => [] end) ms.
Proof.
  induction ms as [|m ms IH]; intros i r w; simpl.
  - exists w. now rewrite !app_nil_r.
  - unfold bind at 1. simpl. unfold bind at 1.
    destruct (m r) as [e|]; simpl;
      match goal with
      | |- context [notifyMonitors_from (S i) r ms ?w1] =>
          destruct (IH (S i) r w1) as [w' [Hrun [Hcalls Herrs]]]
      end;
      exists w'; rewrite Hrun, Hcalls, Herrs; simpl;
      rewrite ?monitorCalls_app, ?consoleErrors_app; simpl;
      rewrite ?app_nil_r, <- ?app_assoc; simpl; repeat split.
Qed.

(** X1.  [notifyMonitors] calls every monitor once, in list order, on the
    response it was given, whether or not earlier monitors throw; what the
    monitors throw goes to [console.error] in the same order, and
    [notifyMonitors] itself returns normally. *)
Theorem notifyMonitors_isolates_failures
    (response : SWRKitResponse) (monitors : list Monitor) (w : World) :
  snd (notifyMonitors response monitors w) = inr tt /\
  monitorCalls (trace (fst (notifyMonitors response monitors w))) =
    monitorCalls (trace w) ++
    numberFrom 0 (map (fun _ => response) monitors) /\
  consoleErrors (trace (fst (notifyMonitors response monitors w))) =
    consoleErrors (trace w) ++
    flat_map (fun m => match m response with
                       | Some e => [e]
                       | None => []
                       end) monitors.
Proof.
  destruct (notifyMonitors_from_calls monitors 0 response w)
    as [w' [Hrun [Hcalls Herrs]]].
  unfold notifyMonitors. rewrite Hrun. simpl. repeat split; assumption.
Qed.

Lemma applyRequestTransforms_from_calls (ts : list RequestTransform) :
  forall i c w,
    requestTransformCalls
      (trace (fst (applyRequestTransforms_from i c ts w))) =
      requestTransformCalls (trace w) ++ numberFrom i (transformInputs c ts).
Proof.
  induction ts as [|t ts IH]; intros i c w; simpl.
  - now rewrite app_nil_r.
  - unfold bind at 1. simpl. unfold bind at 1. unfold lift at 1.
    destruct (t c) as [e|c']; simpl.
    + now rewrite requestTransformCalls_app.
    + rewrite IH. simpl. rewrite requestTransformCalls_app. simpl.
      now rewrite <- app_assoc.
Qed.

Lemma applyResponseTransforms_from_calls (ts : list ResponseTransform) :
  forall i r w,
    responseTransformCalls
      (trace (fst (applyResponseTransforms_from i r ts w))) =
      responseTransformCalls (trace w) ++
      numberFrom i (transformInputs r ts) /\
    snd (applyResponseTransforms_from i r ts w) =
      runResponseTransforms r ts.
Proof.
  induction ts as [|t ts IH]; intros i r w; simpl.
  - now rewrite app_nil_r.
  - unfold bind at 1 3. simpl. unfold bind at 1 2. unfold lift at 1 2.
    destruct (t r) as [e|r']; simpl.
    + now rewrite responseTransformCalls_app.
    + destruct (IH (S i) r'
                  {| trace := trace w ++ [EvResponseTransform i r];
                     clock := clock w |}) as [Hcalls Hres].
      rewrite Hcalls, Hres. simpl. rewrite responseTransformCalls_app. simpl.
      now rewrite <- app_assoc.
Qed.

(** X2.  [applyRequestTransforms] calls the transforms in list order, the
    first on the config it was given and each further one on the config
    its predecessor left; it stops at the first transform that throws and
    throws what that transform threw, and otherwise yields the config the
    last transform left. *)
Theorem applyRequestTransforms_in_order
    (config : SWRKitRequestConfig) (transforms : list RequestTransform)
    (w : World) :
  snd (applyRequestTransforms config transforms w) =
    runRequestTransforms config transforms /\
  requestTransformCalls
    (trace (fst (applyRequestTransforms config transforms w))) =
    requestTransformCalls (trace w) ++
    numberFrom 0 (transformInputs config transforms).
Proof.
  split.
  - apply applyRequestTransforms_from_result.
  - apply applyRequestTransforms_from_calls.
Qed.

Lemma transformInputs_app {A : Type} (ts1 ts2 : list (A -> Error + A)) :
  forall (a a1 : A) (run : A -> list (A -> Error + A) -> Error + A),
    (forall x, run x [] = inr x) ->
    (forall x t rest,
       run x (t :: rest) =
         match t x with inl e => inl e | inr x' => run x' rest end) ->
    run a ts1 = inr a1 ->
    transformInputs a (ts1 ++ ts2) =
      transformInputs a ts1 ++ transformInputs a1 ts2 /\
    List.length (transformInputs a ts1) = List.length ts1.
Proof.
  induction ts1 as [|t ts1 IH]; intros a a1 run Hnil Hcons Hrun; simpl.
  - rewrite Hnil in Hrun. inversion Hrun. now subst.
  - rewrite Hcons in Hrun. destruct (t a) as [e|a']; [discriminate|].
    destruct (IH a' a1 run Hnil Hcons Hrun) as [Happ Hlen].
    now rewrite Happ, Hlen.
Qed.

Lemma numberFrom_indices {A : Type} (l : list A) :
  forall i, map fst (numberFrom i l) = seq i (List.length l).
Proof.
  induction l as [|a l IH]; intros i; simpl; [reflexivity|].
  now rewrite IH.
Qed.

Lemma runRequestTransforms_app (ts1 ts2 : list RequestTransform) :
  forall c c1,
    runRequestTransforms c ts1 = inr c1 ->
    runRequestTransforms c (ts1 ++ ts2) = runRequestTransforms c1 ts2.
Proof.
  induction ts1 as [|t ts1 IH]; intros c c1 Hrun; simpl in *.
  - inversion Hrun. now subst.
  - destruct (t c) as [e|c']; [discriminate|]. now apply IH.
Qed.

(** X3.  When a request transform throws, the transforms after it are not
    called: the calls are those of the transforms up to and including the
    one that threw, and the call fails with its error. *)
Theorem applyRequestTransforms_stops_at_failure
    (before after : list RequestTransform) (failing : RequestTransform)
    (config config' : SWRKitRequestConfig) (e : Error) (w : World) :
  runRequestTransforms config before = inr config' ->
  failing config' = inl e ->
  snd (applyRequestTransforms config (before ++ failing :: after) w) =
    inl e /\
  map fst
    (requestTransformCalls
       (trace (fst (applyRequestTransforms config
                      (before ++ failing :: after) w)))) =
    map fst (requestTransformCalls (trace w)) ++
    seq 0 (S (List.length before)).
Proof.
  intros Hbefore Hfail. split.
  - unfold applyRequestTransforms.
    rewrite applyRequestTransforms_from_result.
    rewrite (runRequestTransforms_app _ _ _ _ Hbefore). simpl.
    now rewrite Hfail.
  - unfold applyRequestTransforms.
    rewrite applyRequestTransforms_from_calls, map_app, numberFrom_indices.
    f_equal.
    destruct (transformInputs_app before (failing :: after) config config'
                runRequestTransforms) as [Happ Hlen];
      [reflexivity|reflexivity|exact Hbefore|].
    unfold RequestTransform in *.
    rewrite Happ, length_app, Hlen. simpl. rewrite Hfail. simpl.
    now rewrite Nat.add_1_r.
Qed.

Lemma applyRequestTransforms_stops_at_failure_witness :
  snd (applyRequestTransforms getUsers
         ([fun c => inr (set_params c (Value [("page", JsNumber 1)]))] ++
          (fun _ => inl (newError "no token")) ::
          [fun c => inr (set_params c Absent)])
         (initialWorld [])) = inl (newError "no token") /\
  map fst
    (requestTransformCalls
       (trace (fst (applyRequestTransforms getUsers
                      ([fun c => inr (set_params c
                                        (Value [("page", JsNumber 1)]))] ++
                       (fun _ => inl (newError "no token")) ::
                       [fun c => inr (set_params c Absent)])
                      (initialWorld []))))) =
    map fst (requestTransformCalls (trace (initialWorld []))) ++
    seq 0 (S (List.length
                [fun c : SWRKitRequestConfig =>
                   @inr Error _
                     (set_params c (Value [("page", JsNumber 1)]))])).
Proof.
  apply (applyRequestTransforms_stops_at_failure
           [fun c => inr (set_params c (Value [("page", JsNumber 1)]))]
           [fun c => inr (set_params c Absent)]
           (fun _ => inl (newError "no token"))
           getUsers
           (set_params getUsers (Value [("page", JsNumber 1)]))
           (newError "no token") (initialWorld []));
    reflexivity.
Defined.

(** [applyResponseTransforms] calls the transforms in list order, the
    first on the response it was given and each further one on the
    response its predecessor left, stops at the first that throws, and
    yields the response the last one left. *)
Theorem applyResponseTransforms_in_order
    (response : SWRKitResponse) (transforms : list ResponseTransform)
    (w : World) :
  snd (applyResponseTransforms response transforms w) =
    runResponseTransforms response transforms /\
  responseTransformCalls
    (trace (fst (applyResponseTransforms response transforms w))) =
    responseTransformCalls (trace w) ++
    numberFrom 0 (transformInputs response transforms).
Proof.
  destruct (applyResponseTransforms_from_calls transforms 0 response w)
    as [Hcalls Hres].
  split; assumption.
Qed.

(** ** Methods with a body *)

Lemma ascii_toUpper_toLower (c : ascii) :
  ascii_toUpper (ascii_toLower c) = ascii_toUpper c.
Proof.
  destruct c as [[] [] [] [] [] [] [] []]; reflexivity.
Qed.

Lemma ascii_toUpper_toUpper (c : ascii) :
  ascii_toUpper (ascii_toUpper c) = ascii_toUpper c.
Proof.
  destruct c as [[] [] [] [] [] [] [] []]; reflexivity.
Qed.

Lemma ascii_toLower_toLower (c : ascii) :
  ascii_toLower (ascii_toLower c) = ascii_toLower c.
Proof.
  destruct c as [[] [] [] [] [] [] [] []]; reflexivity.
Qed.

Lemma toUpperCase_toLowerCase (s : string) :
  toUpperCase (toLowerCase s) = toUpperCase s.
Proof.
  unfold toUpperCase, toLowerCase.
  induction s as [|c s IH]; simpl; [reflexivity|].
  now rewrite ascii_toUpper_toLower, IH.
Qed.

Lemma toUpperCase_toUpperCase (s : string) :
  toUpperCase (toUpperCase s) = toUpperCase s.
Proof.
  unfold toUpperCase, toLowerCase.
  induction s as [|c s IH]; simpl; [reflexivity|].
  now rewrite ascii_toUpper_toUpper, IH.
Qed.

Lemma toLowerCase_toLowerCase (s : string) :
  toLowerCase (toLowerCase s) = toLowerCase s.
Proof.
  unfold toUpperCase, toLowerCase.
  induction s as [|c s IH]; simpl; [reflexivity|].
  now rewrite ascii_toLower_toLower, IH.
Qed.

(** X4.  [shouldHaveBody] does not depend on the casing of the method: it
    gives the same answer for a method, its lower-case and its upper-case
    form, and it answers [true] exactly for the methods that read POST,
    PUT or PATCH in upper case. *)
Theorem shouldHaveBody_ignores_case (method : string) :
  shouldHaveBody (toLowerCase method) = shouldHaveBody method /\
  shouldHaveBody (toUpperCase method) = shouldHaveBody method /\
  (shouldHaveBody method = true <->
   toUpperCase method = "POST" \/ toUpperCase method = "PUT" \/
   toUpperCase method = "PATCH").
Proof.
  unfold shouldHaveBody.
  rewrite toUpperCase_toLowerCase, toUpperCase_toUpperCase.
  split; [reflexivity|split; [reflexivity|]].
  unfold METHODS_WITH_BODY. cbn [existsb].
  rewrite orb_false_r, !orb_true_iff, !String.eqb_eq. tauto.
Qed.

(** ** The fetcher: transport calls, results and errors *)

Lemma fetchCalls_quiet (t : list Event) :
  forallb (fun ev => negb (isFetch ev)) t = true -> fetchCalls t = [].
Proof.
  induction t as [|ev t IH]; simpl; [reflexivity|].
  intros Hq. apply andb_true_iff in Hq. destruct Hq as [Hev Ht].
  rewrite (IH Ht). now destruct ev.
Qed.

Lemma fetcher_send_request `{Builtins} `{Refetch}
    (baseURL : option string) (defaultHeaders : option HeadersInit)
    (defaultTimeout : option Z)
    (responseTransforms : option (list ResponseTransform))
    (monitors : option (list Monitor))
    (startTime : Z) (config : SWRKitRequestConfig) (w : World) :
  exists rest,
    trace (fst (fetcher_send baseURL defaultHeaders defaultTimeout
                  responseTransforms monitors startTime config w)) =
      trace w ++
      EvFetch (fst (requestOf baseURL defaultHeaders defaultTimeout config))
        (snd (requestOf baseURL defaultHeaders defaultTimeout config))
      :: rest /\
    forallb (fun ev => negb (isFetch ev)) rest = true.
Proof.
  unfold fetcher_send.
  match goal with
  | |- context [bind (tell (EvFetch ?u ?fc)) ?k] =>
      assert (Hk : extends (k tt))
  end.
  { apply extends_bind; [apply extends_lift|]. intros response.
    apply extends_bind; [apply extends_Date_now|]. intros now.
    apply extends_bind; [now apply extends_tell|]. intros _.
    apply extends_bind; [apply extends_lift|]. intros data.
    apply extends_bind; [apply extends_response_phase|]. intros r.
    apply extends_bind; [apply extends_monitor_phase|]. intros _.
    destruct (negb (ok r)); [apply extends_throw|apply extends_ret]. }
  unfold bind at 1. simpl.
  match goal with
  | |- context [fst (?k ?w1)] => destruct (Hk w1) as [t [Ht Hf]]
  end.
  exists t. rewrite Ht. simpl. rewrite <- app_assoc. simpl.
  split; [reflexivity|exact Hf].
Qed.

Lemma fetcher_catch_throws `{Builtins} `{Refetch}
    (responseTransforms : option (list ResponseTransform))
    (monitors : option (list Monitor)) (startTime : Z) (cause : Error)
    (w : World) :
  exists w' e,
    fetcher_catch responseTransforms monitors startTime cause w = (w', inl e).
Proof.
  unfold fetcher_catch. unfold bind at 1.
  destruct (Date_now_returns w) as [w0 [now [Hnow _]]]. rewrite Hnow.
  unfold bind at 1.
  destruct (match nonEmpty responseTransforms with
            | Some ts =>
                applyResponseTransforms
                  (normalizeErrorResponse cause None
                     (Some (now - startTime)%Z)) ts
            | None =>
                ret (normalizeErrorResponse cause None
                       (Some (now - startTime)%Z))
            end w0) as [w1 [e|r]]; [now eexists _, _|].
  unfold bind at 1.
  destruct (monitor_phase_returns monitors r w1) as [w2 Hmon].
  rewrite Hmon. now eexists _, _.
Qed.

Lemma fetcher_send_returns_ok `{Builtins} `{Refetch}
    (baseURL : option string) (defaultHeaders : option HeadersInit)
    (defaultTimeout : option Z)
    (responseTransforms : option (list ResponseTransform))
    (monitors : option (list Monitor))
    (startTime : Z) (config : SWRKitRequestConfig) (w : World)
    (r : SWRKitResponse) :
  snd (fetcher_send baseURL defaultHeaders defaultTimeout responseTransforms
         monitors startTime config w) = inr r ->
  ok r = true.
Proof.
  unfold fetcher_send.
  cbv beta iota zeta delta [bind tell lift].
  destruct (fetchWithTimeout _ _) as [e|response]; [discriminate|].
  match goal with
  | |- context [Date_now ?w1] =>
      destruct (Date_now_returns w1) as [w2 [now [Hnow _]]]; rewrite Hnow
  end.
  cbv beta iota.
  destruct (parseResponseBody response) as [e|data]; [discriminate|].
  cbv beta iota.
  match goal with
  | |- context [match nonEmpty responseTransforms with
                | Some ts => applyResponseTransforms ?r0 ts
                | None => _
                end ?w3] =>
      destruct (match nonEmpty responseTransforms with
                | Some ts => applyResponseTransforms r0 ts
                | None => ret r0
                end w3) as [w4 [e|r1]]
  end; [discriminate|].
  destruct (monitor_phase_returns monitors r1 w4) as [w5 Hmon].
  rewrite Hmon.
  destruct (ok r1) eqn:Hok; simpl; [|discriminate].
  unfold ret. simpl. intros Heq. inversion Heq. now subst.
Qed.

(** X5.  A fetcher returns only responses that are ok: whatever the
    collaborators and the transforms do, a response with [ok = false] is
    never returned, it is thrown. *)
Theorem fetcher_returns_only_ok `{Builtins} `{Refetch}
    (baseURL : option string) (defaultHeaders : option HeadersInit)
    (defaultTimeout : option Z)
    (requestTransforms : option (list RequestTransform))
    (responseTransforms : option (list ResponseTransform))
    (monitors : option (list Monitor))
    (config : SWRKitRequestConfig) (w : World) (r : SWRKitResponse) :
  snd (createFetcher baseURL defaultHeaders defaultTimeout requestTransforms
         responseTransforms monitors config w) = inr r ->
  ok r = true.
Proof.
  unfold createFetcher, fetcher. unfold bind at 1.
  destruct (Date_now_returns w) as [w0 [startTime [Hnow _]]]. rewrite Hnow.
  unfold try_catch, fetcher_try. unfold bind at 1.
  destruct (match nonEmpty requestTransforms with
            | Some ts => applyRequestTransforms config ts
            | None => ret config
            end w0) as [w1 [e|config']].
  - destruct (fetcher_catch_throws responseTransforms monitors startTime e w1)
      as [w2 [e' Hcatch]].
    rewrite Hcatch. discriminate.
  - pose proof (fetcher_send_returns_ok baseURL defaultHeaders defaultTimeout
                  responseTransforms monitors startTime config' w1) as Hsend.
    destruct (fetcher_send baseURL defaultHeaders defaultTimeout
                responseTransforms monitors startTime config' w1)
      as [w2 [e|r']].
    + destruct (fetcher_catch_throws responseTransforms monitors startTime
                  e w2) as [w3 [e' Hcatch]].
      rewrite Hcatch. discriminate.
    + simpl. intros Heq. inversion Heq. subst. now apply Hsend.
Qed.

Lemma fetcher_returns_only_ok_witness :
  ok (mkResponse true None None okBody (Some 200%Z)
        (Some [("content-type", "application/json")]) (Some 40%Z)) = true.
Proof.
  apply (@fetcher_returns_only_ok plainBuiltins refetch200 None None None
           None None None getUsers (initialWorld [1000; 1040]%Z)).
  reflexivity.
Defined.

Lemma fetcher_fetchCalls `{Builtins} `{Refetch}
    (baseURL : option string) (defaultHeaders : option HeadersInit)
    (defaultTimeout : option Z)
    (requestTransforms : option (list RequestTransform))
    (responseTransforms : option (list ResponseTransform))
    (monitors : option (list Monitor))
    (config : SWRKitRequestConfig) (w : World) :
  fetchCalls
    (trace (fst (createFetcher baseURL defaultHeaders defaultTimeout
                   requestTransforms responseTransforms monitors config w))) =
  fetchCalls (trace w) ++
  match transformedConfig requestTransforms config with
  | inr config' => [requestOf baseURL defaultHeaders defaultTimeout config']
  | inl _ => []
  end.
Proof.
  unfold createFetcher, fetcher. unfold bind at 1.
  destruct (Date_now_returns w) as [w0 [startTime [Hnow Htrace]]].
  rewrite Hnow, <- Htrace. clear Hnow Htrace w.
  unfold try_catch, fetcher_try. unfold bind at 1.
  pose proof (request_phase_result requestTransforms config w0) as Hres.
  destruct (extends_request_phase requestTransforms config w0)
    as [t1 [Ht1 Hq1]].
  destruct (match nonEmpty requestTransforms with
            | Some ts => applyRequestTransforms config ts
            | None => ret config
            end w0) as [w1 res].
  simpl in Hres, Ht1. rewrite <- Hres. destruct res as [e|config'].
  - destruct (extends_fetcher_catch responseTransforms monitors startTime e w1)
      as [t2 [Ht2 Hq2]].
    rewrite Ht2, Ht1, !fetchCalls_app.
    rewrite (fetchCalls_quiet t1), (fetchCalls_quiet t2) by assumption.
    now rewrite !app_nil_r.
  - destruct (fetcher_send_request baseURL defaultHeaders defaultTimeout
                responseTransforms monitors startTime config' w1)
      as [rest [Hsend Hq]].
    destruct (requestOf baseURL defaultHeaders defaultTimeout config')
      as [fullUrl fetchConfig] eqn:Hreq.
    simpl in Hsend.
    destruct (fetcher_send baseURL defaultHeaders defaultTimeout
                responseTransforms monitors startTime config' w1)
      as [w2 [e|r]]; simpl in Hsend.
    + destruct (extends_fetcher_catch responseTransforms monitors startTime
                  e w2) as [t2 [Ht2 Hq2]].
      rewrite Ht2, Hsend, Ht1, !fetchCalls_app.
      change (EvFetch fullUrl fetchConfig :: rest)
        with ([EvFetch fullUrl fetchConfig] ++ rest).
      rewrite fetchCalls_app.
      rewrite (fetchCalls_quiet t1), (fetchCalls_quiet t2),
        (fetchCalls_quiet rest) by assumption.
      simpl. now rewrite !app_nil_r.
    + simpl. rewrite Hsend, Ht1, !fetchCalls_app.
      change (EvFetch fullUrl fetchConfig :: rest)
        with ([EvFetch fullUrl fetchConfig] ++ rest).
      rewrite fetchCalls_app.
      rewrite (fetchCalls_quiet t1), (fetchCalls_quiet rest) by assumption.
      simpl. now rewrite !app_nil_r.
Qed.

(** X6.  One call of a fetcher calls the transport once, with the URL,
    method, headers, body and timeout built from the config as the request
    transforms left it, and not at all when a request transform throws;
    neither an error status nor the [catch] block causes a second call. *)
Theorem fetcher_single_transport_call `{Builtins} `{Refetch}
    (baseURL : option string) (defaultHeaders : option HeadersInit)
    (defaultTimeout : option Z)
    (requestTransforms : option (list RequestTransform))
    (responseTransforms : option (list ResponseTransform))
    (monitors : option (list Monitor))
    (config : SWRKitRequestConfig) (w : World) :
  fetchCalls
    (trace (fst (createFetcher baseURL defaultHeaders defaultTimeout
                   requestTransforms responseTransforms monitors config w))) =
  fetchCalls (trace w) ++
  match transformedConfig requestTransforms config with
  | inr config' => [requestOf baseURL defaultHeaders defaultTimeout config']
  | inl _ => []
  end.
Proof. apply fetcher_fetchCalls. Qed.

(** X7.  A request whose method is not POST, PUT or PATCH goes out without
    a body, whatever [data] the config carries, unless [config.options]
    supplies one: with no options, the one transport call has no body and
    the method in upper case, [GET] when the config names none. *)
Theorem fetcher_no_body_without_body_method `{Builtins} `{Refetch}
    (baseURL : option string) (defaultHeaders : option HeadersInit)
    (defaultTimeout : option Z)
    (requestTransforms : option (list RequestTransform))
    (responseTransforms : option (list ResponseTransform))
    (monitors : option (list Monitor))
    (config config' : SWRKitRequestConfig) (w : World) :
  transformedConfig requestTransforms config = inr config' ->
  read (options config') = None ->
  shouldHaveBody
    (str_or (option_map toUpperCase (read (method config'))) "GET") = false ->
  exists fullUrl fetchConfig,
    fetchCalls
      (trace (fst (createFetcher baseURL defaultHeaders defaultTimeout
                     requestTransforms responseTransforms monitors
                     config w))) =
      fetchCalls (trace w) ++ [(fullUrl, fetchConfig)] /\
    fc_body fetchConfig = None /\
    fc_method fetchConfig =
      Some (str_or (option_map toUpperCase (read (method config'))) "GET").
Proof.
  intros Hcfg Hopt Hbody.
  exists (fst (requestOf baseURL defaultHeaders defaultTimeout config')),
         (snd (requestOf baseURL defaultHeaders defaultTimeout config')).
  rewrite fetcher_fetchCalls, Hcfg, <- surjective_pairing.
  split; [reflexivity|].
  unfold requestOf. simpl. rewrite Hopt, Hbody. now split.
Qed.

Lemma fetcher_no_body_without_body_method_witness :
  exists fullUrl fetchConfig,
    fetchCalls
      (trace (fst (@createFetcher plainBuiltins refetch200 None None None
                     None None None
                     {| url := Value "/users/1"; method := Value "delete";
                        params := Absent; data := Value renameUser;
                        headers := Absent; timeout := Absent;
                        options := Absent |}
                     (initialWorld [1000; 1040]%Z)))) =
      fetchCalls (trace (initialWorld [1000; 1040]%Z)) ++
      [(fullUrl, fetchConfig)] /\
    fc_body fetchConfig = None /\
    fc_method fetchConfig =
      Some (str_or (option_map toUpperCase (read (Value "delete"))) "GET").
Proof.
  apply (@fetcher_no_body_without_body_method plainBuiltins refetch200
           None None None None None None
           {| url := Value "/users/1"; method := Value "delete";
              params := Absent; data := Value renameUser;
              headers := Absent; timeout := Absent; options := Absent |}
           {| url := Value "/users/1"; method := Value "delete";
              params := Absent; data := Value renameUser;
              headers := Absent; timeout := Absent; options := Absent |}
           (initialWorld [1000; 1040]%Z));
    reflexivity.
Defined.




(** X9.  The typed error made from a response gives that response back:
    [extractResponseFromError] applied to [createErrorFromResponse(r)] is
    [r], and the error carries the status of [r] and the problem code of
    [r], [UNKNOWN_ERROR] standing in for [NONE] and for no code. *)
Theorem createErrorFromResponse_round_trip `{Builtins}
    (r : SWRKitResponse) :
  extractResponseFromError (js_of_Error (createErrorFromResponse r)) =
    js_of_Response r /\
  extractResponseFromTypedError (createErrorFromResponse r) = Some r /\
  e_status (createErrorFromResponse r) = status r /\
  e_problem (createErrorFromResponse r) =
    Some match problem r with
         | Some NONE | None => UNKNOWN_ERROR
         | Some p => p
         end.
Proof.
  split; [|split; [|split]].
  - rewrite extractResponseFromError_typed.
    unfold extractResponseFromTypedError.
    now rewrite createErrorFromResponse_response.
  - apply createErrorFromResponse_response.
  - unfold createErrorFromResponse. now destruct (problem r) as [[]|].
  - unfold createErrorFromResponse. now destruct (problem r) as [[]|].
Qed.

(** ** Merging request configs, continued *)

Lemma mergeSteps_skip_undefined `{Refetch}
    (configs : list (option SWRKitRequestConfig)) :
  forall merged,
    fold_left mergeStep configs merged =
      fold_left mergeStep (map Some (present configs)) merged.
Proof.
  induction configs as [|[c|] configs IH]; intros merged; simpl.
  - reflexivity.
  - apply IH.
  - apply IH.
Qed.

(** X10.  [mergeConfigs] skips the entries that are [undefined], wherever
    they stand: the result is that of merging the remaining configs in the
    same order, and merging no config at all gives the empty config. *)
Theorem mergeConfigs_skips_undefined `{Refetch}
    (configs : list (option SWRKitRequestConfig)) :
  mergeConfigs configs = mergeConfigs (map Some (present configs)) /\
  (present configs = [] -> mergeConfigs configs = emptyConfig).
Proof.
  unfold mergeConfigs. split.
  - apply mergeSteps_skip_undefined.
  - intros Hnone. rewrite mergeSteps_skip_undefined, Hnone. reflexivity.
Qed.

Lemma mergeConfigs_skips_undefined_witness :
  @mergeConfigs refetch200 [None; None] = emptyConfig.
Proof.
  apply (proj2 (@mergeConfigs_skips_undefined refetch200 [None; None])).
  reflexivity.
Defined.

Section ScalarProperties.

Context `{Refetch}.
Context {A : Type}.
Variable field : SWRKitRequestConfig -> prop A.
Hypothesis field_assigned :
  forall merged config,
    field (mergeStep merged (Some config)) =
      assign (field merged) (field config).

Lemma mergeSteps_latest (configs : list (option SWRKitRequestConfig)) :
  forall merged,
    field (fold_left mergeStep configs merged) =
      match latest (map field (present configs)) with
      | Absent => field merged
      | q => q
      end.
Proof.
  induction configs as [|[c|] configs IH]; intros merged.
  - reflexivity.
  - change (present (Some c :: configs)) with (c :: present configs).
    cbn [fold_left map latest]. rewrite IH, field_assigned.
    destruct (latest (map field (present configs))); try reflexivity.
    unfold assign. now destruct (field c).
  - apply IH.
Qed.

End ScalarProperties.

Lemma mergeStep_scalars `{Refetch} (merged config : SWRKitRequestConfig) :
  url (mergeStep merged (Some config)) = assign (url merged) (url config) /\
  method (mergeStep merged (Some config)) =
    assign (method merged) (method config) /\
  data (mergeStep merged (Some config)) =
    assign (data merged) (data config) /\
  timeout (mergeStep merged (Some config)) =
    assign (timeout merged) (timeout config) /\
  options (mergeStep merged (Some config)) =
    assign (options merged) (options config).
Proof.
  unfold mergeStep.
  destruct (read (headers config)), (read (params config)); simpl;
    repeat split.
Qed.

(** X11.  Each of [url], [method], [data], [timeout] and [options] of the
    merged config is the property of the last config in the list that has
    it, [undefined] entries skipped; a config that has the property with
    the value [undefined] counts, and so erases an earlier value; a
    property no config has is missing from the result. *)
Theorem mergeConfigs_scalars_latest `{Refetch}
    (configs : list (option SWRKitRequestConfig)) :
  url (mergeConfigs configs) = latest (map url (present configs)) /\
  method (mergeConfigs configs) = latest (map method (present configs)) /\
  data (mergeConfigs configs) = latest (map data (present configs)) /\
  timeout (mergeConfigs configs) = latest (map timeout (present configs)) /\
  options (mergeConfigs configs) = latest (map options (present configs)).
Proof.
  unfold mergeConfigs.
  repeat split;
    (rewrite mergeSteps_latest;
     [now destruct (latest _)
     |intros merged config; apply (mergeStep_scalars merged config)]).
Qed.

(** ** Cache keys, continued *)

Lemma append_question_not_empty (p rest : string) :
  (p ^^ String "?" rest =? EmptyString) = false.
Proof. now destruct p. Qed.

Lemma string_length_append (a b : string) :
  String.length (a ^^ b) = (String.length a + String.length b)%nat.
Proof. induction a as [|c a IH]; simpl; [reflexivity|now rewrite IH]. Qed.

(** X12.  Building the cache key never loses the URL: a key from which
    [extractUrlFromKey] reads a URL still gives one after [buildCacheKey],
    whatever the parameters.  For a string key with parameters the URL read
    back is the whole canonical key, query string included, and this holds
    for the empty string too, which alone gives no URL. *)
Theorem buildCacheKey_keeps_url `{Builtins}
    (key : JsValue) (params : option JsObj) :
  (extractUrlFromKey key <> JsNull ->
   extractUrlFromKey (buildCacheKey key params) <> JsNull) /\
  (forall p m,
     key = JsString p -> params = Some m -> m <> [] ->
     extractUrlFromKey (buildCacheKey key params) =
       buildCacheKey key params /\
     buildCacheKey key params <> JsString p).
Proof.
  split.
  - destruct key as [| |b|n|s|l|o]; try (intros Hurl; exact Hurl).
    + unfold extractUrlFromKey. simpl. destruct b; intros Hurl;
        now exfalso.
    + unfold extractUrlFromKey. simpl.
      destruct (n =? 0)%Z; intros Hurl; now exfalso.
    + intros Hurl.
      assert (Hs : (s =? EmptyString) = false).
      { destruct (s =? EmptyString) eqn:E; [|reflexivity].
        exfalso. apply Hurl. unfold extractUrlFromKey. simpl.
        now rewrite E. }
      unfold buildCacheKey.
      destruct params as [ps|];
        [destruct (0 <? List.length (Object_keys ps))%nat|];
        unfold extractUrlFromKey; simpl;
        rewrite ?append_question_not_empty, ?Hs; simpl; discriminate.
  - intros p m Hkey Hparams Hm. subst key params.
    destruct m as [|kv m]; [congruence|].
    unfold buildCacheKey. simpl.
    split.
    + unfold extractUrlFromKey. simpl.
      now rewrite append_question_not_empty.
    + intros Heq. inversion Heq as [Hstr]. clear Heq.
      match type of Hstr with
      | p ^^ String "?" ?rest = p =>
          assert (Hlen : String.length (p ^^ String "?" rest) =
                         String.length p) by now rewrite Hstr
      end.
      rewrite string_length_append in Hlen. simpl in Hlen. lia.
Qed.

Lemma buildCacheKey_keeps_url_witness :
  @extractUrlFromKey plainBuiltins
    (@buildCacheKey plainBuiltins (JsString "/users")
       (Some [("page", JsNumber 1)])) <> JsNull /\
  @extractUrlFromKey plainBuiltins
    (@buildCacheKey plainBuiltins (JsString EmptyString)
       (Some [("page", JsNumber 1)])) =
    @buildCacheKey plainBuiltins (JsString EmptyString)
      (Some [("page", JsNumber 1)]).
Proof.
  split.
  - apply (proj1 (@buildCacheKey_keeps_url plainBuiltins (JsString "/users")
                    (Some [("page", JsNumber 1)]))).
    discriminate.
  - apply (proj2 (@buildCacheKey_keeps_url plainBuiltins
                    (JsString EmptyString) (Some [("page", JsNumber 1)]))
             EmptyString [("page", JsNumber 1)] eq_refl eq_refl).
    discriminate.
Defined.

(** ** Header helpers of the provider *)

Lemma alist_get_set_same {A : Type} (o : list (string * A)) (k : string)
    (v : A) :
  alist_get (alist_set o k v) k = Some v.
Proof.
  induction o as [|[k0 v0] o IH]; simpl.
  - now rewrite String.eqb_refl.
  - destruct (k0 =? k) eqn:E; simpl; now rewrite E.
Qed.

Lemma alist_get_set_other {A : Type} (o : list (string * A))
    (k k' : string) (v : A) :
  k <> k' -> alist_get (alist_set o k v) k' = alist_get o k'.
Proof.
  intros Hne. apply String.eqb_neq in Hne.
  induction o as [|[k0 v0] o IH]; simpl.
  - now rewrite Hne.
  - destruct (k0 =? k) eqn:E; simpl.
    + apply String.eqb_eq in E. subst k0. now rewrite Hne.
    + now rewrite IH.
Qed.

Lemma alist_set_set {A : Type} (o : list (string * A)) (k : string)
    (v1 v2 : A) :
  alist_set (alist_set o k v1) k v2 = alist_set o k v2.
Proof.
  induction o as [|[k0 v0] o IH]; simpl.
  - now rewrite String.eqb_refl.
  - destruct (k0 =? k) eqn:E; simpl; rewrite E; [reflexivity|].
    now rewrite IH.
Qed.

Lemma alist_get_filter_same {A : Type} (o : list (string * A)) (k : string) :
  alist_get (filter (fun kv => negb (fst kv =? k)) o) k = None.
Proof.
  induction o as [|[k0 v0] o IH]; simpl; [reflexivity|].
  destruct (k0 =? k) eqn:E; simpl; [exact IH|]. now rewrite E.
Qed.

Lemma alist_get_filter_other {A : Type} (o : list (string * A))
    (k k' : string) :
  k <> k' ->
  alist_get (filter (fun kv => negb (fst kv =? k)) o) k' = alist_get o k'.
Proof.
  intros Hne. apply String.eqb_neq in Hne.
  induction o as [|[k0 v0] o IH]; simpl; [reflexivity|].
  destruct (k0 =? k) eqn:E; simpl.
  - apply String.eqb_eq in E. subst k0. now rewrite Hne.
  - now rewrite IH.
Qed.

Lemma filter_filter_same {A : Type} (f : A -> bool) (l : list A) :
  filter f (filter f l) = filter f l.
Proof.
  induction l as [|a l IH]; simpl; [reflexivity|].
  destruct (f a) eqn:E; simpl; [now rewrite E, IH|exact IH].
Qed.

Lemma Headers_set_lower_other (h : list (string * string))
    (n m value : string) :
  n <> m -> alist_get (Headers_set_lower h n value) m = alist_get h m.
Proof.
  intros Hne. pose proof Hne as Hneb. apply String.eqb_neq in Hneb.
  induction h as [|[k v] h IH]; simpl.
  - now rewrite Hneb.
  - destruct (k =? n) eqn:E; simpl.
    + apply String.eqb_eq in E. subst k. rewrite Hneb.
      now apply alist_get_filter_other.
    + now rewrite IH.
Qed.

Lemma Headers_set_lower_set (h : list (string * string))
    (n v1 v2 : string) :
  Headers_set_lower (Headers_set_lower h n v1) n v2 =
    Headers_set_lower h n v2.
Proof.
  induction h as [|[k v] h IH]; simpl.
  - now rewrite String.eqb_refl.
  - destruct (k =? n) eqn:E; simpl.
    + now rewrite String.eqb_refl, filter_filter_same.
    + now rewrite E, IH.
Qed.

Lemma array_get_set_same (entries : list (string * string))
    (name value : string) :
  array_get_header (array_set_header entries name value) name = Some value.
Proof.
  unfold array_get_header.
  induction entries as [|[k v] entries IH]; simpl.
  - now rewrite String.eqb_refl.
  - destruct (toLowerCase k =? toLowerCase name) eqn:E; simpl.
    + now rewrite String.eqb_refl.
    + now rewrite E.
Qed.

Lemma array_get_set_other (entries : list (string * string))
    (name other value : string) :
  toLowerCase other <> toLowerCase name ->
  array_get_header (array_set_header entries name value) other =
    array_get_header entries other.
Proof.
  intros Hne. unfold array_get_header.
  assert (Hneb : (toLowerCase name =? toLowerCase other) = false)
    by (apply String.eqb_neq; congruence).
  induction entries as [|[k v] entries IH]; simpl.
  - now rewrite Hneb.
  - destruct (toLowerCase k =? toLowerCase name) eqn:E; simpl.
    + apply String.eqb_eq in E. rewrite E, Hneb. reflexivity.
    + destruct (toLowerCase k =? toLowerCase other); [reflexivity|exact IH].
Qed.

Lemma array_set_set (entries : list (string * string))
    (name v1 v2 : string) :
  array_set_header (array_set_header entries name v1) name v2 =
    array_set_header entries name v2.
Proof.
  induction entries as [|[k v] entries IH]; simpl.
  - now rewrite String.eqb_refl.
  - destruct (toLowerCase k =? toLowerCase name) eqn:E; simpl.
    + now rewrite String.eqb_refl.
    + now rewrite E, IH.
Qed.

Lemma setHeader_then_read_lemma (prev : option HeadersInit)
    (name value : string) :
  headerValue (Some (setHeader prev name value)) name = Some value.
Proof.
  destruct prev as [[entries|entries|fields]|]; simpl.
  - apply Headers_get_set.
  - apply array_get_set_same.
  - apply alist_get_set_same.
  - now rewrite String.eqb_refl.
Qed.

(** X13.  After [setHeader(name, value)] the headers carry [value] for
    [name], in each of the three shapes and when there were no headers
    before. *)
Theorem setHeader_then_read (prev : option HeadersInit)
    (name value : string) :
  headerValue (Some (setHeader prev name value)) name = Some value.
Proof. apply setHeader_then_read_lemma. Qed.

(** X14.  [setHeader(name, value)] leaves the value of every other header
    as it was: what the headers carry for a name that differs from [name]
    by more than casing is the same before and after. *)
Theorem setHeader_keeps_others (prev : option HeadersInit)
    (name other value : string) :
  toLowerCase other <> toLowerCase name ->
  headerValue (Some (setHeader prev name value)) other =
    headerValue prev other.
Proof.
  intros Hne.
  assert (Hnames : name <> other) by (intros Heq; subst; now apply Hne).
  destruct prev as [[entries|entries|fields]|]; simpl.
  - unfold Headers_get, Headers_set.
    apply Headers_set_lower_other. congruence.
  - now apply array_get_set_other.
  - now apply alist_get_set_other.
  - apply String.eqb_neq in Hnames. now rewrite Hnames.
Qed.

Lemma setHeader_keeps_others_witness :
  headerValue
    (Some (setHeader (Some (HArray [("Accept", "text/csv")]))
             "X-Trace" "on")) "accept" =
    headerValue (Some (HArray [("Accept", "text/csv")])) "accept".
Proof.
  apply (setHeader_keeps_others (Some (HArray [("Accept", "text/csv")]))
           "X-Trace" "accept" "on").
  discriminate.
Defined.

(** X15.  Setting a header twice keeps the second value only: the result
    of [setHeader(name, v1)] followed by [setHeader(name, v2)] is that of
    [setHeader(name, v2)] alone, so no shape accumulates duplicates of a
    name set through [setHeader]. *)
Theorem setHeader_overwrites (prev : option HeadersInit)
    (name v1 v2 : string) :
  setHeader (Some (setHeader prev name v1)) name v2 = setHeader prev name v2.
Proof.
  destruct prev as [[entries|entries|fields]|]; simpl.
  - unfold Headers_set. now rewrite Headers_set_lower_set.
  - now rewrite array_set_set.
  - now rewrite alist_set_set.
  - now rewrite String.eqb_refl.
Qed.

(** The last entry handed to [setHeaders] for a name decides its
    value: after [setHeaders] of a record whose last property is [name:
    value], the headers carry [value] for [name]. *)
Theorem setHeaders_last_wins (prev : option HeadersInit)
    (headers : list (string * string)) (name value : string) :
  headerValue (setHeaders prev (headers ++ [(name, value)])) name =
    Some value.
Proof.
  unfold setHeaders. rewrite fold_left_app. simpl.
  apply setHeader_then_read_lemma.
Qed.

Lemma array_get_filter_same (entries : list (string * string))
    (name : string) :
  array_get_header
    (filter (fun kv => negb (toLowerCase (fst kv) =? toLowerCase name))
       entries) name = None.
Proof.
  unfold array_get_header.
  induction entries as [|[k v] entries IH]; simpl; [reflexivity|].
  destruct (toLowerCase k =? toLowerCase name) eqn:E; simpl; [exact IH|].
  now rewrite E.
Qed.

Lemma array_get_filter_other (entries : list (string * string))
    (name other : string) :
  toLowerCase other <> toLowerCase name ->
  array_get_header
    (filter (fun kv => negb (toLowerCase (fst kv) =? toLowerCase name))
       entries) other = array_get_header entries other.
Proof.
  intros Hne. unfold array_get_header.
  induction entries as [|[k v] entries IH]; simpl; [reflexivity|].
  destruct (toLowerCase k =? toLowerCase name) eqn:E; simpl.
  - apply String.eqb_eq in E.
    destruct (toLowerCase k =? toLowerCase other) eqn:E'; [|exact IH].
    apply String.eqb_eq in E'. congruence.
  - destruct (toLowerCase k =? toLowerCase other); [reflexivity|exact IH].
Qed.

Lemma filter_absent_key {A : Type} (o : list (string * A)) (k : string) :
  alist_get o k = None -> filter (fun kv => negb (fst kv =? k)) o = o.
Proof.
  induction o as [|[k0 v0] o IH]; simpl; [reflexivity|].
  destruct (k0 =? k); simpl; [discriminate|].
  intros Hget. now rewrite IH.
Qed.

Lemma filter_absent_header (entries : list (string * string))
    (name : string) :
  array_get_header entries name = None ->
  filter (fun kv => negb (toLowerCase (fst kv) =? toLowerCase name))
    entries = entries.
Proof.
  unfold array_get_header.
  induction entries as [|[k v] entries IH]; simpl; [reflexivity|].
  destruct (toLowerCase k =? toLowerCase name); simpl; [discriminate|].
  intros Hget. now rewrite IH.
Qed.

(** X16.  After [deleteHeader(name)] the headers carry nothing for [name],
    and what they carry for a name that differs from [name] by more than
    casing is as before. *)
Theorem deleteHeader_removes (prev : option HeadersInit) (name : string) :
  headerValue (deleteHeader prev name) name = None /\
  (forall other,
     toLowerCase other <> toLowerCase name ->
     headerValue (deleteHeader prev name) other = headerValue prev other).
Proof.
  split.
  - destruct prev as [[entries|entries|fields]|]; simpl.
    + unfold Headers_get, Headers_delete. apply alist_get_filter_same.
    + apply array_get_filter_same.
    + unfold alist_delete. apply alist_get_filter_same.
    + reflexivity.
  - intros other Hne.
    assert (Hnames : name <> other) by (intros Heq; subst; now apply Hne).
    destruct prev as [[entries|entries|fields]|]; simpl.
    + unfold Headers_get, Headers_delete.
      apply alist_get_filter_other. congruence.
    + now apply array_get_filter_other.
    + unfold alist_delete. now apply alist_get_filter_other.
    + reflexivity.
Qed.

(** X17.  [deleteHeader] of a name the headers carry nothing for changes
    nothing.  For a plain record that is every name that is not an exact
    key: a header stored under another casing stays. *)
Theorem deleteHeader_absent (prev : option HeadersInit) (name : string) :
  headerValue prev name = None -> deleteHeader prev name = prev.
Proof.
  destruct prev as [[entries|entries|fields]|]; simpl; intros Hget.
  - unfold Headers_delete. unfold Headers_get in Hget.
    now rewrite filter_absent_key.
  - now rewrite filter_absent_header.
  - unfold alist_delete. now rewrite filter_absent_key.
  - reflexivity.
Qed.

Lemma deleteHeader_absent_witness :
  deleteHeader
    (Some (HRecord [("Content-Type", "application/json");
                    ("Accept", "application/json")])) "content-type" =
    Some (HRecord [("Content-Type", "application/json");
                   ("Accept", "application/json")]).
Proof.
  apply (deleteHeader_absent
           (Some (HRecord [("Content-Type", "application/json");
                           ("Accept", "application/json")]))
           "content-type").
  reflexivity.
Defined.

(** ** The authentication transform, continued *)

Lemma authTransform_eq (userAuth : option AuthConfig)
    (getAccessToken : option (option string -> option string))
    (config : SWRKitRequestConfig) :
  authTransform userAuth getAccessToken config =
    match availableToken userAuth getAccessToken with
    | None => config
    | Some token =>
        set_headers config
          (Value (withAuthHeader (effectiveAuthHeader userAuth)
                    (effectiveAuthValue userAuth token)
                    match read (headers config) with
                    | Some h => h
                    | None => HRecord []
                    end))
    end.
Proof.
  unfold authTransform, availableToken, effectiveAuthHeader,
    effectiveAuthValue, withAuthHeader.
  destruct (read (autoAuth (spreadAuth DEFAULT_AUTH_CONFIG userAuth)))
    as [[|]|]; destruct getAccessToken as [get|]; try reflexivity;
    (destruct (get _) as [token|]; [|reflexivity];
     destruct (token =? EmptyString); [reflexivity|];
     destruct (read (headers config)) as [[entries|entries|fields]|];
     cbv zeta; cbv iota beta;
     repeat match goal with
            | |- context [if ?b then _ else _] => destruct b
            end; reflexivity).
Qed.

(** X18.  The authentication transform changes nothing but the headers:
    URL, method, parameters, data, timeout and options of the config are
    as before, whatever the token and the auth config. *)
Theorem authTransform_touches_only_headers (userAuth : option AuthConfig)
    (getAccessToken : option (option string -> option string))
    (config : SWRKitRequestConfig) :
  url (authTransform userAuth getAccessToken config) = url config /\
  method (authTransform userAuth getAccessToken config) = method config /\
  params (authTransform userAuth getAccessToken config) = params config /\
  data (authTransform userAuth getAccessToken config) = data config /\
  timeout (authTransform userAuth getAccessToken config) = timeout config /\
  options (authTransform userAuth getAccessToken config) = options config.
Proof.
  rewrite authTransform_eq.
  destruct (availableToken userAuth getAccessToken); repeat split.
Qed.

(** X19.  Without a token the transform leaves the config exactly as it
    is, headers included: that is when [autoAuth] is [false], when the
    provider has no [getAccessToken], and when [getAccessToken] answers
    [null] or the empty string. *)
Theorem authTransform_without_token (userAuth : option AuthConfig)
    (getAccessToken : option (option string -> option string))
    (config : SWRKitRequestConfig) :
  availableToken userAuth getAccessToken = None ->
  authTransform userAuth getAccessToken config = config.
Proof. intros Hnone. now rewrite authTransform_eq, Hnone. Qed.

Lemma authTransform_without_token_witness :
  authTransform
    (Some {| accessTokenCookie := Absent; authHeader := Absent;
             tokenPrefix := Absent; autoAuth := Value false |})
    cookieToken (withHeaders (HRecord [])) = withHeaders (HRecord []).
Proof.
  apply (authTransform_without_token
           (Some {| accessTokenCookie := Absent; authHeader := Absent;
                    tokenPrefix := Absent; autoAuth := Value false |})
           cookieToken (withHeaders (HRecord []))).
  reflexivity.
Defined.

Lemma effectiveAuthValue_not_empty (userAuth : option AuthConfig)
    (token : string) :
  (effectiveAuthValue userAuth token =? EmptyString) = false.
Proof.
  unfold effectiveAuthValue.
  now destruct (str_or _ "Bearer").
Qed.

Lemma array_has_header_get (entries : list (string * string))
    (name : string) :
  array_has_header entries name = true ->
  array_get_header entries name <> None.
Proof.
  unfold array_has_header, array_get_header.
  induction entries as [|[k v] entries IH]; simpl; [discriminate|].
  destruct (toLowerCase k =? toLowerCase name); simpl; [discriminate|].
  exact IH.
Qed.

Lemma array_has_header_pushed (entries : list (string * string))
    (name value : string) :
  array_has_header (entries ++ [(name, value)]) name = true.
Proof.
  unfold array_has_header. rewrite existsb_app. simpl.
  now rewrite String.eqb_refl, orb_true_r.
Qed.

Lemma withAuthHeader_twice (name value : string) (current : HeadersInit) :
  (value =? EmptyString) = false ->
  withAuthHeader name value (withAuthHeader name value current) =
    withAuthHeader name value current.
Proof.
  intros Hvalue. destruct current as [entries|entries|fields]; simpl.
  - unfold Headers_set. now rewrite Headers_set_lower_set.
  - destruct (array_has_header entries name) eqn:Hhas; simpl.
    + now rewrite Hhas.
    + now rewrite array_has_header_pushed.
  - destruct (str_or (alist_get fields name) EmptyString =? EmptyString)
      eqn:Hget; simpl.
    + now rewrite alist_get_set_same; simpl; rewrite Hvalue; simpl;
        rewrite Hvalue.
    + now rewrite Hget.
Qed.

(** X20.  With a token the config leaves the transform with the
    authorization header present, in every headers shape and when it had
    no headers. *)
Theorem authTransform_ensures_header (userAuth : option AuthConfig)
    (getAccessToken : option (option string -> option string))
    (config : SWRKitRequestConfig) (token : string) :
  availableToken userAuth getAccessToken = Some token ->
  header_of (authTransform userAuth getAccessToken config)
    (effectiveAuthHeader userAuth) <> None.
Proof.
  intros Htoken. rewrite authTransform_eq, Htoken.
  unfold header_of. simpl.
  pose proof (effectiveAuthValue_not_empty userAuth token) as Hvalue.
  destruct (read (headers config)) as [[entries|entries|fields]|]; simpl.
  - rewrite Headers_get_set. discriminate.
  - destruct (array_has_header entries (effectiveAuthHeader userAuth))
      eqn:Hhas.
    + now apply array_has_header_get.
    + apply array_has_header_get, array_has_header_pushed.
  - destruct (alist_get fields (effectiveAuthHeader userAuth)) as [v|] eqn:Hget;
      simpl.
    + destruct (v =? EmptyString) eqn:Hv; simpl.
      * rewrite alist_get_set_same. discriminate.
      * rewrite Hv, Hget. discriminate.
    + rewrite alist_get_set_same. discriminate.
  - rewrite String.eqb_refl. discriminate.
Qed.

Lemma authTransform_ensures_header_witness :
  header_of (authTransform None cookieToken getUsers)
    (effectiveAuthHeader None) <> None.
Proof.
  apply (authTransform_ensures_header None cookieToken getUsers "tok").
  reflexivity.
Defined.

(** X21.  The authentication transform is idempotent: applied to its own
    result it changes nothing, in every headers shape, so a config that
    passes it twice carries the header once. *)
Theorem authTransform_idempotent (userAuth : option AuthConfig)
    (getAccessToken : option (option string -> option string))
    (config : SWRKitRequestConfig) :
  authTransform userAuth getAccessToken
    (authTransform userAuth getAccessToken config) =
    authTransform userAuth getAccessToken config.
Proof.
  rewrite !authTransform_eq.
  destruct (availableToken userAuth getAccessToken) as [token|];
    [|reflexivity].
  simpl. rewrite withAuthHeader_twice
    by apply effectiveAuthValue_not_empty.
  now destruct config.
Qed.

(** ** Pagination *)

(** X22.  [hasMore] looks at the last page only: with no data and with no
    page it is [false], and otherwise it is what the last page alone
    gives.  For a last page that is an array it holds exactly when the
    page has at least [pageSize] items, so after a short last page
    [loadMore] leaves the page count as it is. *)
Theorem hasMore_last_page (pages : list JsValue) (page : JsValue)
    (items : list JsValue) (pageSize size : Z) (isValidating : bool) :
  hasMore None pageSize = false /\
  hasMore (Some []) pageSize = false /\
  hasMore (Some (pages ++ [page])) pageSize = hasMore (Some [page]) pageSize /\
  hasMore (Some (pages ++ [JsArray items])) pageSize =
    (pageSize <=? Z.of_nat (List.length items))%Z /\
  ((Z.of_nat (List.length items) < pageSize)%Z ->
   loadMore isValidating (hasMore (Some (pages ++ [JsArray items])) pageSize)
     size = size).
Proof.
  assert (Hlast : forall p,
            hasMore (Some (pages ++ [p])) pageSize =
              hasMore (Some [p]) pageSize).
  { intros p. unfold hasMore, lastPage. now rewrite last_last. }
  split; [reflexivity|split; [reflexivity|split; [apply Hlast|split]]].
  - now rewrite Hlast.
  - intros Hshort. rewrite Hlast. unfold hasMore, lastPage, loadMore. simpl.
    apply Z.leb_gt in Hshort. rewrite Hshort. now rewrite andb_false_r.
Qed.

Lemma hasMore_last_page_witness :
  loadMore false
    (hasMore (Some ([JsArray [JsNumber 1; JsNumber 2]] ++
                    [JsArray [JsNumber 3]])) 2%Z) 2%Z = 2%Z.
Proof.
  apply (proj2 (proj2 (proj2 (proj2
           (hasMore_last_page [JsArray [JsNumber 1; JsNumber 2]] JsNull
              [JsNumber 3] 2%Z 2%Z false))))).
  reflexivity.
Defined.

(** ** Retry with backoff *)

(** X23.  The retry handler schedules no revalidation exactly when the
    retry count has reached [maxRetries] or the error has a status from
    400 to 499; every other error, with or without a status, is retried. *)
Theorem onErrorRetry_gives_up (options : RetryOptions) (status : option Z)
    (retryCount : option nat) :
  onErrorRetry options status retryCount = None <->
  (maxRetriesOf options <= Z.of_nat (option_default retryCount 0%nat))%Z \/
  (exists st, status = Some st /\ (400 <= st < 500)%Z).
Proof.
  unfold onErrorRetry, maxRetriesOf.
  destruct (option_default (maxRetries options) 3 <=?
            Z.of_nat (option_default retryCount 0%nat))%Z eqn:Hmax.
  - apply Z.leb_le in Hmax. split; [now left|reflexivity].
  - apply Z.leb_gt in Hmax.
    destruct status as [st|].
    + destruct (negb (st =? 0)%Z && (400 <=? st)%Z && (st <? 500)%Z)
        eqn:Hst.
      * split; [|reflexivity]. intros _. right. exists st.
        apply andb_true_iff in Hst. destruct Hst as [Hst Hhi].
        apply andb_true_iff in Hst. destruct Hst as [_ Hlo].
        split; [reflexivity|lia].
      * split; [discriminate|].
        intros [Hge|[st' [Heq Hrange]]]; [lia|].
        inversion Heq; subst st'.
        assert (Htrue : negb (st =? 0)%Z && (400 <=? st)%Z && (st <? 500)%Z
                        = true).
        { rewrite !andb_true_iff, negb_true_iff.
          repeat split; [apply Z.eqb_neq|apply Z.leb_le|apply Z.ltb_lt];
            lia. }
        congruence.
    + split; [discriminate|].
      intros [Hge|[st' [Heq _]]]; [lia|discriminate].
Qed.

(** X24.  A scheduled retry never waits longer than [maxDelay], and with a
    base delay that is not negative the delays do not shrink as the retry
    count grows: each is the doubled base delay capped at [maxDelay]. *)
Theorem onErrorRetry_delay_bounds (options : RetryOptions)
    (status : option Z) (n1 n2 : nat) (d1 d2 : Z) :
  onErrorRetry options status (Some n1) = Some d1 ->
  onErrorRetry options status (Some n2) = Some d2 ->
  (0 <= baseDelayOf options)%Z ->
  (n1 <= n2)%nat ->
  (d1 <= maxDelayOf options)%Z /\ (d1 <= d2)%Z /\
  d1 = Z.min (baseDelayOf options * 2 ^ Z.of_nat n1) (maxDelayOf options).
Proof.
  unfold onErrorRetry, baseDelayOf, maxDelayOf. simpl option_default.
  set (base := option_default (baseDelay options) 1000%Z).
  set (cap := option_default (maxDelay options) 30000%Z).
  intros H1 H2 Hbase Hle.
  assert (Hd1 : d1 = Z.min (base * 2 ^ Z.of_nat n1) cap).
  { destruct (_ <=? Z.of_nat n1)%Z; [discriminate|].
    destruct status as [st|];
      [destruct (negb (st =? 0)%Z && (400 <=? st)%Z && (st <? 500)%Z);
       [discriminate|]|];
      now inversion H1. }
  assert (Hd2 : d2 = Z.min (base * 2 ^ Z.of_nat n2) cap).
  { destruct (_ <=? Z.of_nat n2)%Z; [discriminate|].
    destruct status as [st|];
      [destruct (negb (st =? 0)%Z && (400 <=? st)%Z && (st <? 500)%Z);
       [discriminate|]|];
      now inversion H2. }
  subst d1 d2. split; [apply Z.le_min_r|split; [|reflexivity]].
  apply Z.min_le_compat_r.
  apply Z.mul_le_mono_nonneg_l; [exact Hbase|].
  apply Z.pow_le_mono_r; lia.
Qed.

Lemma onErrorRetry_delay_bounds_witness :
  (2000 <= maxDelayOf {| maxRetries := None; baseDelay := None;
                         maxDelay := None |})%Z /\
  (2000 <= 4000)%Z /\
  2000%Z =
    Z.min (baseDelayOf {| maxRetries := None; baseDelay := None;
                          maxDelay := None |} * 2 ^ Z.of_nat 1)
      (maxDelayOf {| maxRetries := None; baseDelay := None;
                     maxDelay := None |}).
Proof.
  apply (onErrorRetry_delay_bounds
           {| maxRetries := None; baseDelay := None; maxDelay := None |}
           (Some 503%Z) 1 2 2000%Z 4000%Z);
    [reflexivity|reflexivity|discriminate|lia].
Defined.

(** ** Mutations, the fetcher of [useFetch] and preloading *)


Section PreloadFacts.

Context `{Builtins}.
Variable globalMutate : JsValue -> JsValue -> bool -> M unit.
Variable console_debug : JsValue -> option Error -> M unit.

Lemma preloadUrl_none (key : JsValue) (params : option JsObj) :
  preloadUrl key params = None ->
  forall (A : Type) (k : string -> A) (d : A),
    (if negb (truthy (buildCacheKey key params)) then d
     else match extractUrlFromKey (buildCacheKey key params) with
          | JsString url => if url =? EmptyString then d else k url
          | _ => d
          end) = d.
Proof.
  unfold preloadUrl. intros Hnone A k d.
  destruct (negb (truthy (buildCacheKey key params))); [reflexivity|].
  destruct (extractUrlFromKey (buildCacheKey key params)); try reflexivity.
  destruct (s =? EmptyString); [reflexivity|discriminate].
Qed.

Lemma preloadUrl_some (key : JsValue) (params : option JsObj)
    (url : string) :
  preloadUrl key params = Some url ->
  forall (A : Type) (k : string -> A) (d : A),
    (if negb (truthy (buildCacheKey key params)) then d
     else match extractUrlFromKey (buildCacheKey key params) with
          | JsString url => if url =? EmptyString then d else k url
          | _ => d
          end) = k url.
Proof.
  unfold preloadUrl. intros Hsome A k d.
  destruct (negb (truthy (buildCacheKey key params))) eqn:Hfalsy.
  - unfold extractUrlFromKey in Hsome. rewrite Hfalsy in Hsome.
    discriminate.
  - destruct (extractUrlFromKey (buildCacheKey key params));
      try discriminate.
    destruct (s =? EmptyString); [discriminate|].
    now inversion Hsome.
Qed.

End PreloadFacts.

(** X26.  For a key that gives no URL ([null], [undefined], the empty
    string without parameters, an empty list, a list whose first element
    reads as the empty string, a record without [url]) preloading does
    nothing: neither [preload] nor the callback of [useSWRKitPreload]
    calls the fetcher, writes the cache or logs. *)
Theorem preload_without_url `{Builtins}
    (globalMutate : JsValue -> JsValue -> bool -> M unit)
    (console_debug : JsValue -> option Error -> M unit)
    (fetcher : SWRKitRequestConfig -> M SWRKitResponse)
    (key : JsValue) (params : option JsObj) (w : World) :
  preloadUrl key params = None ->
  preload globalMutate key params (Some fetcher) w = (w, inr tt) /\
  useSWRKitPreload globalMutate console_debug fetcher key params w =
    (w, inr tt).
Proof.
  intros Hnone. unfold preload, useSWRKitPreload.
  split.
  - now rewrite (preloadUrl_none key params Hnone).
  - now rewrite (preloadUrl_none key params Hnone).
Qed.

Lemma preload_without_url_witness :
  @preload plainBuiltins (fun _ _ _ => ret tt) (JsArray [JsString EmptyString])
    None (Some fetcher404) (initialWorld []) = (initialWorld [], inr tt) /\
  @useSWRKitPreload plainBuiltins (fun _ _ _ => ret tt) (fun _ _ => ret tt)
    fetcher404 (JsArray [JsString EmptyString]) None (initialWorld []) =
    (initialWorld [], inr tt).
Proof.
  apply (@preload_without_url plainBuiltins (fun _ _ _ => ret tt)
           (fun _ _ => ret tt) fetcher404 (JsArray [JsString EmptyString])
           None (initialWorld [])).
  reflexivity.
Defined.



(** [preload], unlike the callback of [useSWRKitPreload], lets a
    failed fetch through: when the fetcher throws, [preload] throws the
    same error and does not write the cache; and it writes the cache, under
    the canonical key and without revalidation, only for a response that
    is ok and whose data is truthy. *)
Theorem preload_outcomes `{Builtins}
    (globalMutate : JsValue -> JsValue -> bool -> M unit)
    (fetcher : SWRKitRequestConfig -> M SWRKitResponse)
    (key : JsValue) (params : option JsObj) (url : string) (w : World) :
  preloadUrl key params = Some url ->
  preload globalMutate key params (Some fetcher) w =
    match fetcher (getConfig url params) w with
    | (w', inl e) => (w', inl e)
    | (w', inr r) =>
        if ok r && truthy (r_data r) then
          globalMutate (buildCacheKey key params) (r_data r) false w'
        else (w', inr tt)
    end.
Proof.
  intros Hurl. unfold preload.
  rewrite (preloadUrl_some key params url Hurl). unfold bind.
  destruct (fetcher (getConfig url params) w) as [w' [e|r]];
    [reflexivity|].
  now destruct (ok r && truthy (r_data r)).
Qed.

Lemma preload_outcomes_witness :
  exists thrown,
    snd (@preload plainBuiltins (fun _ _ _ => ret tt) (JsString "/users")
           None (Some fetcher404) (initialWorld [1000; 1040; 1050]%Z)) =
      inl thrown /\
    snd (fetcher404 (getConfig "/users" None)
           (initialWorld [1000; 1040; 1050]%Z)) = inl thrown.
Proof.
  eexists. split; [|reflexivity].
  rewrite (@preload_outcomes plainBuiltins (fun _ _ _ => ret tt) fetcher404
             (JsString "/users") None "/users"
             (initialWorld [1000; 1040; 1050]%Z) eq_refl).
  reflexivity.
Defined.

(** X28.  The fetcher of [useFetch], called with the cache key that
    [useFetch] builds from a string path and non-empty parameters, hands
    the context fetcher a [GET] config whose URL is the canonical key, the
    serialized query string included, and whose parameters are the same
    parameters again; it returns the data of whatever response comes back,
    ok or not, and throws what the context fetcher throws.  A key that
    gives no URL makes it throw before any fetch. *)
Theorem useFetch_fetcher_request `{Builtins} `{Refetch}
    (p : string) (m : JsObj)
    (contextFetcher : SWRKitRequestConfig -> M SWRKitResponse) (w : World) :
  m <> [] ->
  NoDup (Object_keys m) ->
  (exists canonical fetchConfig q,
     buildCacheKey (JsString p) (Some m) = JsString canonical /\
     canonical <> p /\
     useFetch_fetcher (Some m) None contextFetcher (JsString canonical) w =
       match contextFetcher fetchConfig w with
       | (w', inl e) => (w', inl e)
       | (w', inr r) => (w', inr (r_data r))
       end /\
     url fetchConfig = Value canonical /\
     method fetchConfig = Value "GET" /\
     params fetchConfig = Value q /\
     forall k, obj_get q k = obj_get m k) /\
  (forall key,
     extractUrlFromKey key = JsNull ->
     useFetch_fetcher (Some m) None contextFetcher key w =
       (w, inl (newError "Invalid cache key: could not extract URL"))).
Proof.
  intros Hm Hnd. split.
  - destruct m as [|kv m']; [congruence|].
    remember (kv :: m') as m eqn:Hmeq.
    assert (Hkey : exists rest,
              buildCacheKey (JsString p) (Some m) =
                JsString (p ^^ String "?" rest)).
    { subst m. unfold buildCacheKey. simpl. now eexists. }
    destruct Hkey as [rest Hkey].
    exists (p ^^ String "?" rest),
           (mergeConfigs
              [Some (getConfig (p ^^ String "?" rest) (Some m)); None]),
           (obj_spread (Some m) (Some m)).
    split; [exact Hkey|]. split.
    { intros Heq.
      assert (Hlen : String.length (p ^^ String "?" rest) = String.length p)
        by now rewrite Heq.
      rewrite string_length_append in Hlen. simpl in Hlen. lia. }
    split.
    { unfold useFetch_fetcher, extractUrlFromKey. cbn [truthy].
      rewrite append_question_not_empty. cbn [negb].
      rewrite append_question_not_empty. unfold bind, ret.
      now destruct (contextFetcher _ w) as [w' [e|r]]. }
    split; [reflexivity|]. split; [reflexivity|]. split; [reflexivity|].
    intros k. rewrite obj_get_spread by assumption.
    destruct (obj_has m k) eqn:Hhas; reflexivity.
  - intros key Hkey. unfold useFetch_fetcher. now rewrite Hkey.
Qed.

Lemma useFetch_fetcher_request_witness :
  exists canonical fetchConfig q,
    @buildCacheKey plainBuiltins (JsString "/users")
      (Some [("page", JsNumber 1)]) = JsString canonical /\
    canonical <> "/users" /\
    @useFetch_fetcher plainBuiltins refetch200 (Some [("page", JsNumber 1)])
      None fetcher404 (JsString canonical) (initialWorld []) =
      match fetcher404 fetchConfig (initialWorld []) with
      | (w', inl e) => (w', inl e)
      | (w', inr r) => (w', inr (r_data r))
      end /\
    url fetchConfig = Value canonical /\
    method fetchConfig = Value "GET" /\
    params fetchConfig = Value q /\
    forall k, obj_get q k = obj_get [("page", JsNumber 1)] k.
Proof.
  apply (proj1 (@useFetch_fetcher_request plainBuiltins refetch200 "/users"
                  [("page", JsNumber 1)] fetcher404 (initialWorld [])
                  ltac:(discriminate)
                  ltac:(repeat constructor; simpl; tauto))).
Defined.

(** ** Mock fetchers *)

(** X29.  Every response of [createMockFetcher], of
    [createStatusMockFetcher] and of [createFailingMockFetcher] is well
    formed: it is ok exactly when it has no problem code and no original
    error.  A response of [createStatusMockFetcher] for a listed URL is ok
    exactly when the listed status is from 200 to 299, and its problem is
    [SERVER_ERROR] from status 500 on and [CLIENT_ERROR] for every other
    status that is not ok. *)
Theorem mock_responses_well_formed `{Builtins}
    (responses : list (string * MockEntry))
    (statuses : list (string * (Z * JsValue)))
    (successData : JsValue) (failAfter requestCount : Z)
    (config : SWRKitRequestConfig) :
  wellFormed (createMockFetcher responses config) /\
  wellFormed (createStatusMockFetcher statuses config) /\
  wellFormed
    (snd (failingFetcher successData failAfter requestCount config)) /\
  (forall st data,
     alist_get statuses (str_or (read (url config)) EmptyString) =
       Some (st, data) ->
     (ok (createStatusMockFetcher statuses config) = true <->
      (200 <= st < 300)%Z) /\
     problem (createStatusMockFetcher statuses config) =
       if ((200 <=? st) && (st <? 300))%Z then None
       else if (500 <=? st)%Z then Some SERVER_ERROR
       else Some CLIENT_ERROR).
Proof.
  unfold wellFormed, createMockFetcher, createStatusMockFetcher,
    failingFetcher.
  split; [|split; [|split]].
  - destruct (alist_get responses _) as [[d|e]|]; simpl;
      split; split; congruence.
  - destruct (alist_get statuses _) as [[st d]|]; simpl;
      [|split; split; congruence].
    destruct ((200 <=? st)%Z && (st <? 300)%Z); simpl;
      [split; split; congruence|].
    destruct (500 <=? st)%Z; split; split; congruence.
  - destruct (failAfter <? requestCount + 1)%Z; simpl;
      split; split; congruence.
  - intros st data Hget. rewrite Hget. simpl. split; [|reflexivity].
    rewrite andb_true_iff, Z.leb_le, Z.ltb_lt. tauto.
Qed.

Lemma failingFetcher_run (successData : JsValue) (failAfter : Z)
    (configs : list SWRKitRequestConfig) :
  forall requestCount,
    fst (runCalls (failingFetcher successData failAfter) requestCount
           configs) = (requestCount + Z.of_nat (List.length configs))%Z /\
    forall i r,
      nth_error
        (snd (runCalls (failingFetcher successData failAfter) requestCount
                configs)) i = Some r ->
      ok r = (requestCount + Z.of_nat (S i) <=? failAfter)%Z.
Proof.
  induction configs as [|c configs IH]; intros requestCount.
  - simpl. split; [lia|]. intros [|i] r; discriminate.
  - cbn [runCalls].
    destruct (failingFetcher successData failAfter requestCount c)
      as [s' r0] eqn:Hcall.
    assert (Hs' : s' = (requestCount + 1)%Z /\
                  ok r0 = (requestCount + 1 <=? failAfter)%Z).
    { unfold failingFetcher in Hcall.
      destruct (failAfter <? requestCount + 1)%Z eqn:Hlt;
        inversion Hcall; subst; simpl; split; try reflexivity;
        symmetry; [apply Z.leb_gt; now apply Z.ltb_lt
                  |apply Z.leb_le; now apply Z.ltb_ge]. }
    destruct Hs' as [Hs' Hok0]. subst s'.
    destruct (IH (requestCount + 1)%Z) as [Hstate Hnth].
    destruct (runCalls (failingFetcher successData failAfter)
                (requestCount + 1)%Z configs) as [s'' rs].
    simpl in Hstate, Hnth |- *. split; [lia|].
    intros [|i] r Hr; simpl in Hr.
    + inversion Hr; subst. rewrite Hok0. reflexivity.
    + rewrite (Hnth i r Hr). f_equal; lia.
Qed.

(** X30.  A fetcher made by [createFailingMockFetcher] counts its calls:
    after [n] calls its counter is [n], and its [k]-th call returns an ok
    response exactly when [k] is at most [failAfter], whatever the configs
    of the calls. *)
Theorem failingFetcher_fails_after (successData : JsValue) (failAfter : Z)
    (configs : list SWRKitRequestConfig) :
  fst (runCalls (failingFetcher successData failAfter) 0%Z configs) =
    Z.of_nat (List.length configs) /\
  forall i r,
    nth_error
      (snd (runCalls (failingFetcher successData failAfter) 0%Z configs)) i =
      Some r ->
    ok r = (Z.of_nat (S i) <=? failAfter)%Z.
Proof.
  destruct (failingFetcher_run successData failAfter configs 0%Z)
    as [Hstate Hnth].
  split; [exact Hstate|]. intros i r Hr. now rewrite (Hnth i r Hr).
Qed.

(** A fetcher made by [createTrackingMockFetcher] records the config
    of every call, in call order, after the requests recorded before, and
    answers each call as [createMockFetcher] does; [clearRequests] empties
    the record. *)
Theorem trackingFetcher_records_calls
    (responses : list (string * MockEntry))
    (configs requests : list SWRKitRequestConfig) :
  runCalls (trackingFetcher responses) requests configs =
    (requests ++ configs, map (createMockFetcher responses) configs) /\
  fst (runCalls (trackingFetcher responses) (clearRequests requests)
         configs) = configs.
Proof.
  assert (Hrun : forall cs rs,
            runCalls (trackingFetcher responses) rs cs =
              (rs ++ cs, map (createMockFetcher responses) cs)).
  { induction cs as [|c cs IH]; intros rs; simpl.
    - now rewrite app_nil_r.
    - rewrite IH, <- app_assoc. reflexivity. }
  split; [apply Hrun|]. now rewrite Hrun.
Qed.

Lemma deleteHeader_removes_witness :
  headerValue
    (deleteHeader (Some (HArray [("Accept", "text/csv"); ("X-Trace", "on")]))
       "accept") "x-trace" =
    headerValue (Some (HArray [("Accept", "text/csv"); ("X-Trace", "on")]))
      "x-trace".
Proof.
  apply (proj2 (deleteHeader_removes
                  (Some (HArray [("Accept", "text/csv"); ("X-Trace", "on")]))
                  "accept") "x-trace").
  discriminate.
Defined.

Lemma mock_responses_well_formed_witness :
  (ok (@createStatusMockFetcher plainBuiltins
         [("/users", (404%Z, JsNull))] getUsers) = true <->
   (200 <= 404 < 300)%Z) /\
  problem (@createStatusMockFetcher plainBuiltins
             [("/users", (404%Z, JsNull))] getUsers) =
    if ((200 <=? 404) && (404 <? 300))%Z then None
    else if (500 <=? 404)%Z then Some SERVER_ERROR
    else Some CLIENT_ERROR.
Proof.
  apply (proj2 (proj2 (proj2
           (@mock_responses_well_formed plainBuiltins []
              [("/users", (404%Z, JsNull))] JsNull 0%Z 0%Z getUsers)))
           404%Z JsNull).
  reflexivity.
Defined.

Lemma failingFetcher_fails_after_witness :
  ok (mkResponse false (Some SERVER_ERROR) (Some (newError "Mock error"))
        JsUndefined (Some 500%Z) (Some []) None) =
    (Z.of_nat 2 <=? 1)%Z.
Proof.
  apply (proj2 (failingFetcher_fails_after okBody 1%Z [getUsers; getUsers])
           1%nat).
  reflexivity.
Defined.
